(** * data-sync: the sync-pair reconciliation engine of [sync_manager.py]

    A shallow embedding of [SyncPair] ([sync], [_pull_changes],
    [_commit_and_push], [_initialize_git], [_ensure_valid_repository]) over an
    arbitrary version-control engine.  The engine (GitPython in the source) is
    a collaborator: every call the source makes on it is a constructor of
    [call], and the engine itself is a function [exec] that answers a call in
    a repository state with a value or a Python exception and a successor
    state.  The Python code is written in a state-and-exception monad whose
    state also holds the pair's mutable attributes, the list of engine calls
    issued so far and the log. *)

From Stdlib Require Import String Ascii ZArith List Bool Lia.
Import ListNotations.
Local Open Scope list_scope.
Local Open Scope string_scope.
Local Open Scope Z_scope.

(** ** Python exceptions *)

(** The classes the source distinguishes in its [except] clauses.
    [OtherException] is any further subclass of [Exception] (TypeError,
    KeyError, IndexError, OSError, ...); [BaseOnly] is an exception outside
    the [Exception] hierarchy (KeyboardInterrupt, SystemExit), which
    [except Exception] does not catch.  The string is [str(e)]. *)
Inductive exn : Type :=
| GitCommandError (text : string)
| ValueError (text : string)
| BadName (text : string)
| OtherException (text : string)
| BaseOnly (text : string).

Definition str (e : exn) : string :=
  match e with
  | GitCommandError t | ValueError t | BadName t
  | OtherException t | BaseOnly t => t
  end.

(** [except git.exc.GitCommandError] *)
Definition is_GitCommandError (e : exn) : bool :=
  match e with GitCommandError _ => true | _ => false end.

(** [except (ValueError, git.exc.BadName)] *)
Definition is_ValueError_or_BadName (e : exn) : bool :=
  match e with ValueError _ | BadName _ => true | _ => false end.

(** [except Exception] *)
Definition is_Exception (e : exn) : bool :=
  match e with BaseOnly _ => false | _ => true end.

(** ** Strings: [str.lower()], [needle in haystack], [str.format] *)

Definition lower_ascii (c : ascii) : ascii :=
  let n := nat_of_ascii c in
  if (Nat.leb 65 n && Nat.leb n 90)%bool then ascii_of_nat (n + 32) else c.

Fixpoint lower (s : string) : string :=
  match s with
  | EmptyString => EmptyString
  | String c s' => String (lower_ascii c) (lower s')
  end.

(** [needle in haystack] on strings *)
Definition contains (needle haystack : string) : bool :=
  match String.index 0 needle haystack with Some _ => true | None => false end.

(** [template.format(timestamp=ts)] for templates whose replacement fields
    are plain: [{timestamp}] is substituted, [{{] and [}}] are the escaped
    braces, any other field name raises KeyError and an unmatched brace
    raises ValueError.  [skip] characters are dropped first. *)
Fixpoint format_from (skip : nat) (template ts : string) : exn + string :=
  match template with
  | EmptyString => inr EmptyString
  | String c rest =>
      match skip with
      | S k => format_from k rest ts
      | O =>
          if Ascii.eqb c "{" then
            if String.prefix "{" rest then
              match format_from 1 rest ts with
              | inr out => inr (String "{" out)
              | inl e => inl e
              end
            else if String.prefix "timestamp}" rest then
              match format_from 10 rest ts with
              | inr out => inr (ts ++ out)
              | inl e => inl e
              end
            else if contains "}" rest then inl (OtherException "KeyError")
            else inl (ValueError "expected '}' before end of string")
          else if Ascii.eqb c "}" then
            if String.prefix "}" rest then
              match format_from 1 rest ts with
              | inr out => inr (String "}" out)
              | inl e => inl e
              end
            else inl (ValueError "Single '}' encountered in format string")
          else
            match format_from 0 rest ts with
            | inr out => inr (String c out)
            | inl e => inl e
            end
      end
  end.

Definition format (template ts : string) : exn + string :=
  format_from 0 template ts.

(** ** The engine *)

(** Every call the source makes on GitPython, the file system and the wall
    clock.  [Git cmd args] is [the command self.repo.git.cmd applied to args]. *)
Inductive call : Type :=
| Git (cmd : string) (args : list string)
| IsDirty                         (* self.repo.is_dirty() *)
| ActiveBranchName                (* self.repo.active_branch.name *)
| HeadIsValid                     (* self.repo.head.is_valid() *)
| HeadCommit                      (* self.repo.head.commit (its hexsha) *)
| IndexAdd (pattern : string)     (* self.repo.index.add(pattern) *)
| IndexDiff (other : option string) (* self.repo.index.diff(other) *)
| IndexCommit (message : string)  (* self.repo.index.commit(message) *)
| UntrackedFiles                  (* self.repo.untracked_files *)
| OriginRefs                      (* self.repo.remotes.origin.refs *)
| OriginPush (refspec : string)   (* self.repo.remotes.origin.push(refspec) *)
| OriginSetUrl (url : string)     (* self.repo.remotes.origin.set_url(url) *)
| HasRemote (rname : string)      (* rname in self.repo.remotes *)
| CreateRemote (rname url : string) (* self.repo.create_remote(rname, url) *)
| IterCommits                     (* list(self.repo.iter_commits()) *)
| HeadReset (commit : string) (working_tree : bool)
                                  (* self.repo.head.reset(commit, working_tree=..) *)
| RepoInit (path : string)        (* git.Repo.init(path) *)
| RepoOpen (path : string)        (* git.Repo(path) *)
| PathExists (path : string)      (* os.path.exists(path) *)
| FolderNonEmpty (path : string)  (* any(Path(path).iterdir()) *)
| Mkdir (path : string)           (* Path(path).mkdir(parents=True, exist_ok=True) *)
| DatetimeNow (fmt : string).     (* datetime.now().strftime(fmt) *)

(** What a call answers when it does not raise.  Commits are named by their
    hexsha; a diff is the list of its changed paths; the remote-tracking
    references of [origin] are listed as (branch name, hexsha of the tip). *)
Definition ret_type (c : call) : Type :=
  match c with
  | Git _ _ => string
  | IsDirty | HeadIsValid | HasRemote _ | PathExists _ | FolderNonEmpty _ => bool
  | ActiveBranchName | HeadCommit | DatetimeNow _ => string
  | IndexDiff _ | UntrackedFiles | IterCommits => list string
  | OriginRefs => list (string * string)
  | IndexAdd _ | IndexCommit _ | OriginPush _ | OriginSetUrl _
  | CreateRemote _ _ | HeadReset _ _ | RepoInit _ | RepoOpen _ | Mkdir _ => unit
  end.

Definition is_git_command (c : call) : bool :=
  match c with Git _ _ => true | _ => false end.

Definition is_pull (c : call) : bool :=
  match c with Git cmd _ => String.eqb cmd "pull" | _ => false end.

Definition is_index_add (c : call) : bool :=
  match c with IndexAdd _ => true | _ => false end.

Definition is_index_commit (c : call) : bool :=
  match c with IndexCommit _ => true | _ => false end.

Definition is_push (c : call) : bool :=
  match c with OriginPush _ => true | _ => false end.

(** ** Configuration and log *)

Record SyncPairConfig : Type := mkConfig {
  name : string;
  local_folder : string;
  github_repo : string;
  github_token : string;           (* as returned by _resolve_token *)
  autocommit_time : Z;
  branch : string;
  commit_message_template : string
}.

Inductive level : Type := INFO | WARNING | ERROR.

Section Engine.

(** The repository state of the engine and the engine itself. *)
Variable R : Type.
Variable exec : forall c : call, R -> (exn + ret_type c) * R.

(** ** The SyncPair object and its monad *)

(** An engine call that was issued, with the exception it raised if any. *)
Definition event : Type := (call * option exn)%type.

Definition raised {A} (r : exn + A) : option exn :=
  match r with inl e => Some e | inr _ => None end.

(** [sync_lock] is [true] while the [threading.Lock] is held;
    [last_sync_time] and the readings of [time.time()] are counted in ticks
    of the clock. *)
Record state : Type := mkState {
  repo : R;
  trace : list event;
  logs : list (level * string);
  last_sync_time : Z;
  sync_lock : bool
}.

Definition M (A : Type) : Type := state -> (exn + A) * state.

Definition ret {A} (a : A) : M A := fun s => (inr a, s).

Definition raise {A} (e : exn) : M A := fun s => (inl e, s).

Definition bind {A B} (m : M A) (k : A -> M B) : M B :=
  fun s => match m s with
           | (inr a, s') => k a s'
           | (inl e, s') => (inl e, s')
           end.

(** [try: body  except <catches> as e: handler e] *)
Definition try_except {A} (body : M A) (catches : exn -> bool)
    (handler : exn -> M A) : M A :=
  fun s => match body s with
           | (inl e, s') => if catches e then handler e s' else (inl e, s')
           | ok => ok
           end.

(** [try: body  finally: cleanup], for a cleanup that only updates the
    object. *)
Definition try_finally {A} (body : M A) (cleanup : state -> state) : M A :=
  fun s => let (r, s') := body s in (r, cleanup s').

(** One call on the engine; it is appended to the trace whether it answers
    or raises. *)
Definition invoke (c : call) : M (ret_type c) :=
  fun s => let (r, repo') := exec c (repo s) in
           (r, mkState repo' (trace s ++ [(c, raised r)]) (logs s)
                       (last_sync_time s) (sync_lock s)).

Definition log (l : level) (msg : string) : M unit :=
  fun s => (inr tt, mkState (repo s) (trace s) (logs s ++ [(l, msg)])
                            (last_sync_time s) (sync_lock s)).

Definition lift {A} (r : exn + A) : M A := fun s => (r, s).

Definition set_last_sync_time (t : Z) : M unit :=
  fun s => (inr tt, mkState (repo s) (trace s) (logs s) t (sync_lock s)).

Definition set_lock (b : bool) (s : state) : state :=
  mkState (repo s) (trace s) (logs s) (last_sync_time s) b.

Definition when (b : bool) (m : M unit) : M unit :=
  if b then m else ret tt.

End Engine.

Arguments raised {A}.
Arguments mkState {R}.
Arguments repo {R}.
Arguments trace {R}.
Arguments logs {R}.
Arguments last_sync_time {R}.
Arguments sync_lock {R}.
Arguments ret {R A}.
Arguments raise {R A}.
Arguments bind {R A B}.
Arguments try_except {R A}.
Arguments try_finally {R A}.
Arguments invoke {R}.
Arguments log {R}.
Arguments lift {R A}.
Arguments set_last_sync_time {R}.
Arguments set_lock {R}.
Arguments when {R}.

Declare Scope py_scope.
Delimit Scope py_scope with py.
Notation "x <- m ;; k" := (bind m (fun x => k))
  (at level 100, m at next level, right associativity) : py_scope.
Notation "m ;;; k" := (bind m (fun _ => k))
  (at level 100, right associativity) : py_scope.
Local Open Scope py_scope.

(** ** SyncPair: the reconciliation cycle *)

Section SyncPair.

Context {R : Type}.
Variable exec : forall c : call, R -> (exn + ret_type c) * R.
Variable cfg : SyncPairConfig.

Definition pull_args : list string :=
  ["origin"; branch cfg; "--no-rebase"; "--strategy-option=theirs"].

Definition reset_args : list string :=
  ["--hard"; "origin/" ++ branch cfg].

(** Python truth value of a list *)
Definition nonempty {A} (l : list A) : bool :=
  match l with [] => false | _ => true end.

Definition has_ref (b : string) (refs : list (string * string)) : bool :=
  existsb (fun r => String.eqb (fst r) b) refs.

Fixpoint ref_commit (b : string) (refs : list (string * string))
    : option string :=
  match refs with
  | [] => None
  | (n, h) :: rest => if String.eqb n b then Some h else ref_commit b rest
  end.

Definition option_eqb (a b : option string) : bool :=
  match a, b with
  | None, None => true
  | Some x, Some y => String.eqb x y
  | _, _ => false
  end.

(** Lines 559-560 and 564-565:
    [remote_ref = refs[self.branch] if self.branch in refs else None] and
    [remote_ref.commit.hexsha if remote_ref else None].  The property
    [self.repo.remotes.origin.refs] is evaluated once for the test and once
    more for the subscript, which raises IndexError when the name is gone. *)
Definition remote_head : M R (option string) :=
  refs <- invoke exec OriginRefs ;;
  if has_ref (branch cfg) refs then
    refs' <- invoke exec OriginRefs ;;
    match ref_commit (branch cfg) refs' with
    | Some h => ret (Some h)
    | None => raise (OtherException "IndexError")
    end
  else ret None.

(** Lines 547-557: stage everything and commit when the index differs from
    HEAD; the answer is the local variable [committed]. *)
Definition stage_and_commit : M R bool :=
  invoke exec (IndexAdd "*") ;;;
  d <- invoke exec (IndexDiff (Some "HEAD")) ;;
  if nonempty d then
    timestamp <- invoke exec (DatetimeNow "%Y-%m-%d %H:%M:%S") ;;
    commit_message <- lift (format (commit_message_template cfg) timestamp) ;;
    invoke exec (IndexCommit commit_message) ;;;
    log INFO ("Committed changes for " ++ name cfg ++ ": " ++ commit_message) ;;;
    ret true
  else ret false.

(** Lines 539-569. *)
Definition _commit_and_push : M R bool :=
  committed <- stage_and_commit ;;
  old_remote_head <- remote_head ;;
  invoke exec (OriginPush (branch cfg)) ;;;
  new_remote_head <- remote_head ;;
  pushed <- (if negb (option_eqb old_remote_head new_remote_head) then
               log INFO ("Pushed new commits for " ++ name cfg) ;;; ret true
             else ret false) ;;
  ret (committed || pushed)%bool.

(** [self.repo.head.commit.hexsha if self.repo.head.is_valid() else None] *)
Definition head_hexsha : M R (option string) :=
  valid <- invoke exec HeadIsValid ;;
  if valid then h <- invoke exec HeadCommit ;; ret (Some h) else ret None.

(** Lines 466-482: the body of the [try] of [_pull_changes]. *)
Definition pull_attempt : M R bool :=
  dirty <- invoke exec IsDirty ;;
  (if dirty then _commit_and_push ;;; ret tt else ret tt) ;;;
  current_branch <- invoke exec ActiveBranchName ;;
  (if negb (String.eqb current_branch (branch cfg)) then
     invoke exec (Git "checkout" [branch cfg]) ;;; ret tt
   else ret tt) ;;;
  old_head <- head_hexsha ;;
  invoke exec (Git "pull" pull_args) ;;;
  new_head <- head_hexsha ;;
  if negb (option_eqb old_head new_head) then
    log INFO ("Pulled new changes for " ++ name cfg ++ " (HEAD changed)") ;;;
    ret true
  else ret false.

(** Lines 487-491: abort a merge in progress; a failure of the command is
    passed over. *)
Definition abort_merge : M R unit :=
  try_except (invoke exec (Git "merge" ["--abort"]) ;;; ret tt)
             is_GitCommandError (fun _ => ret tt).

(** Lines 493-499: reset to the remote branch and pull again. *)
Definition reset_and_retry : M R bool :=
  try_except
    (invoke exec (Git "reset" reset_args) ;;;
     invoke exec (Git "pull" pull_args) ;;;
     log INFO ("Successfully resolved conflicts for " ++ name cfg) ;;;
     ret true)
    is_GitCommandError
    (fun reset_error =>
       log ERROR ("Failed to resolve conflicts for " ++ name cfg ++ ": "
                  ++ str reset_error) ;;;
       ret false).

(** Lines 486-499: the merge-conflict branch of the handler. *)
Definition recover_conflict : M R bool :=
  abort_merge ;;; reset_and_retry.

(** Lines 500-510: the untracked-files branch of the handler. *)
Definition recover_untracked : M R bool :=
  try_except
    (invoke exec (IndexAdd "*") ;;;
     invoke exec (IndexCommit "Add untracked files") ;;;
     invoke exec (Git "pull" pull_args) ;;;
     log INFO ("Successfully resolved untracked files for " ++ name cfg) ;;;
     ret true)
    is_GitCommandError
    (fun add_error =>
       log ERROR ("Failed to resolve untracked files for " ++ name cfg ++ ": "
                  ++ str add_error) ;;;
       ret false).

(** Lines 511-518: every other failure. *)
Definition recover_other : M R bool :=
  try_except
    (invoke exec (Git "reset" reset_args) ;;;
     log INFO ("Reset " ++ name cfg ++ " to remote state") ;;;
     ret true)
    is_GitCommandError
    (fun _ =>
       log ERROR ("Failed to reset " ++ name cfg ++ " to remote state") ;;;
       ret false).

Definition is_merge_conflict (e : exn) : bool :=
  contains "merge conflict" (lower (str e)).

Definition is_untracked_collision (e : exn) : bool :=
  contains "untracked working tree files" (lower (str e)).

(** Lines 483-519: the handler [except git.exc.GitCommandError as e]. *)
Definition pull_recover (e : exn) : M R bool :=
  log WARNING ("Pull failed for " ++ name cfg ++ ": " ++ str e) ;;;
  if is_merge_conflict e then recover_conflict
  else if is_untracked_collision e then recover_untracked
  else recover_other.

(** Lines 458-519. *)
Definition _pull_changes : M R bool :=
  try_except pull_attempt is_GitCommandError pull_recover.

(** Lines 444-451: the two steps of a cycle, each with its log line. *)
Definition cycle_steps : M R unit :=
  pulled <- _pull_changes ;;
  when (negb pulled) (log INFO ("No new changes pulled for " ++ name cfg)) ;;;
  committed_and_pushed <- _commit_and_push ;;
  when (negb committed_and_pushed)
       (log INFO ("No local changes to commit or push for " ++ name cfg)).

(** Lines 443-454: the inner [try] of [sync] with its handler. *)
Definition sync_cycle (current_time : Z) : M R unit :=
  try_except
    (cycle_steps ;;;
     set_last_sync_time current_time)
    is_Exception
    (fun e => log ERROR ("Sync error for " ++ name cfg ++ ": " ++ str e)).

(** Lines 437-454: what runs while the lock is held; [current_time] is the
    reading of [time.time()]. *)
Definition sync_locked (current_time : Z) : M R unit :=
  fun s =>
    if current_time - last_sync_time s <? autocommit_time cfg then ret tt s
    else sync_cycle current_time s.

(** Lines 425-456.  [acquire(blocking=False)] fails when the lock is held;
    otherwise the lock is taken, and released by the [finally]. *)
Definition sync (current_time : Z) : M R unit :=
  fun s =>
    if sync_lock s then ret tt s
    else try_finally (sync_locked current_time) (set_lock false)
                     (set_lock true s).

End SyncPair.

(** ** SyncPair: initialization *)

Section Initialization.

Context {R : Type}.
Variable exec : forall c : call, R -> (exn + ret_type c) * R.
Variable cfg : SyncPairConfig.

Definition remote_url : string :=
  "https://" ++ github_token cfg ++ "@github.com/" ++ github_repo cfg ++ ".git".

(** Lines 411-415 and 330-333: checkout of the configured branch, created
    when the checkout fails. *)
Definition checkout_branch : M R unit :=
  try_except (invoke exec (Git "checkout" [branch cfg]) ;;; ret tt)
             is_GitCommandError
             (fun _ => invoke exec (Git "checkout" ["-b"; branch cfg]) ;;; ret tt).

(** Lines 390-393 and 312-315: [try: self.repo.head.commit] with its
    handler [except (ValueError, git.exc.BadName)]. *)
Definition probe_head (fix_head : M R unit) : M R unit :=
  try_except (invoke exec HeadCommit ;;; ret tt)
             is_ValueError_or_BadName
             (fun _ => fix_head).

(** Lines 394-423: the handler of the HEAD probe in [_initialize_git]. *)
Definition initialize_git_fix_head : M R unit :=
  log INFO "Repository exists but has no valid HEAD, fixing..." ;;;
  commits <- invoke exec IterCommits ;;
  match commits with
  | c0 :: _ => invoke exec (HeadReset c0 true)
  | [] =>
      invoke exec (IndexAdd "*") ;;;
      d <- invoke exec (IndexDiff (Some "HEAD")) ;;
      if nonempty d then invoke exec (IndexCommit "Initial commit")
      else invoke exec (IndexCommit "Initial empty commit")
  end ;;;
  checkout_branch ;;;
  try_except
    (invoke exec HeadCommit ;;;
     log INFO ("Successfully fixed HEAD reference for " ++ name cfg))
    is_ValueError_or_BadName
    (fun e => log ERROR ("Failed to fix HEAD reference for " ++ name cfg) ;;;
              raise e).

(** Lines 356-423. *)
Definition _initialize_git : M R unit :=
  git_folder_exists <- invoke exec (PathExists (local_folder cfg ++ "/.git")) ;;
  if negb git_folder_exists then
    log INFO ("Initializing git repository in " ++ local_folder cfg) ;;;
    invoke exec (RepoInit (local_folder cfg)) ;;;
    invoke exec (CreateRemote "origin" remote_url) ;;;
    files <- invoke exec (FolderNonEmpty (local_folder cfg)) ;;
    if files then
      invoke exec (IndexAdd "*") ;;;
      d <- invoke exec (IndexDiff (Some "HEAD")) ;;
      if nonempty d then invoke exec (IndexCommit "Initial commit") else ret tt
    else ret tt
  else
    log INFO ("Git repository already exists in " ++ local_folder cfg) ;;;
    invoke exec (RepoOpen (local_folder cfg)) ;;;
    has_origin <- invoke exec (HasRemote "origin") ;;
    (if negb has_origin then invoke exec (CreateRemote "origin" remote_url)
     else invoke exec (OriginSetUrl remote_url)) ;;;
    probe_head initialize_git_fix_head.

(** Lines 316-333: the handler of the HEAD probe in
    [_ensure_valid_repository]. *)
Definition ensure_valid_fix_head : M R unit :=
  log WARNING ("Invalid HEAD in " ++ name cfg ++ ", attempting to fix...") ;;;
  commits <- invoke exec IterCommits ;;
  match commits with
  | c0 :: _ =>
      invoke exec (HeadReset c0 true) ;;;
      log INFO ("Reset HEAD to first commit in " ++ name cfg)
  | [] =>
      invoke exec (IndexCommit "Initial empty commit") ;;;
      log INFO ("Created initial commit in " ++ name cfg)
  end ;;;
  checkout_branch.

(** Lines 305-333. *)
Definition _ensure_valid_repository : M R unit :=
  probe_head ensure_valid_fix_head.

(** Lines 272-303, from the creation of the local folder on; the token of
    [cfg] is the resolved one.  The lock is created last, free. *)
Definition __init__ : M R unit :=
  invoke exec (Mkdir (local_folder cfg)) ;;;
  _initialize_git ;;;
  set_last_sync_time 0 ;;;
  _ensure_valid_repository ;;;
  (fun s => (inr tt, set_lock false s)).

End Initialization.

(** ** A test double of the engine

    A small repository that answers every [call] the way a repository
    adapter is expected to: commits carry a message and the paths they
    record, the working tree is described by its untracked, modified and
    staged paths ([is_dirty()] looks at the last two only), and the
    outcomes of the network operations (pull, push) and of the hard reset
    are scripted.  While HEAD points at no commit, everything that resolves
    HEAD raises: [head.commit] and [iter_commits()] raise ValueError, a diff
    of the index against ["HEAD"] raises BadName.  It is used to run the
    code on concrete repositories. *)

Module Mock.

Record commit : Type := mkCommit {
  message : string;
  paths : list string
}.

Record repo : Type := mkRepo {
  git_dir : bool;                   (* the .git folder exists *)
  head_broken : bool;               (* HEAD points at no commit although commits exist *)
  history : list commit;            (* commits, as iter_commits lists them *)
  untracked : list string;
  modified : list string;           (* tracked paths changed in the working tree *)
  staged : list string;             (* paths on which the index differs from HEAD *)
  active : string;                  (* the active branch *)
  branches : list string;
  origin_url : option string;
  tracking : option string;         (* tip of origin/branch, when the remote knows the branch *)
  pulls : list (string + list commit);
                                    (* outcomes of the next pulls: the text of a
                                       GitCommandError or the commits merged *)
  push_error : option exn;
  reset_error : option string;      (* text of the GitCommandError of a hard reset *)
  clock : string
}.

Definition digit (n : nat) : string :=
  String (ascii_of_nat (48 + Nat.modulo n 10)) EmptyString.

(** The hexsha of the commit that has [n] commits up to itself. *)
Definition hexsha (n : nat) : string := "c" ++ digit (Nat.div n 10) ++ digit n.

Fixpoint hexshas (h : list commit) : list string :=
  match h with
  | [] => []
  | _ :: older => hexsha (List.length h) :: hexshas older
  end.

Definition head_of (r : repo) : option string :=
  if head_broken r then None
  else match history r with [] => None | _ => Some (hexsha (List.length (history r))) end.

Definition with_tree (r : repo) (h : list commit) (u m st : list string)
    (broken : bool) : repo :=
  mkRepo (git_dir r) broken h u m st (active r) (branches r) (origin_url r)
         (tracking r) (pulls r) (push_error r) (reset_error r) (clock r).

Definition with_branch (r : repo) (b : string) (bs : list string) : repo :=
  mkRepo (git_dir r) (head_broken r) (history r) (untracked r) (modified r)
         (staged r) b bs (origin_url r) (tracking r) (pulls r) (push_error r)
         (reset_error r) (clock r).

Definition with_remote (r : repo) (url : option string) (t : option string)
    (ps : list (string + list commit)) : repo :=
  mkRepo (git_dir r) (head_broken r) (history r) (untracked r) (modified r)
         (staged r) (active r) (branches r) url t ps (push_error r)
         (reset_error r) (clock r).

Definition with_git_dir (r : repo) : repo :=
  mkRepo true (head_broken r) (history r) (untracked r) (modified r)
         (staged r) (active r) (branches r) (origin_url r) (tracking r)
         (pulls r) (push_error r) (reset_error r) (clock r).

Definition mem (x : string) (l : list string) : bool :=
  existsb (String.eqb x) l.

(** The commits from the one named [c] back. *)
Fixpoint back_to (c : string) (h : list commit) : option (list commit) :=
  match h with
  | [] => None
  | _ :: older =>
      if String.eqb (hexsha (List.length h)) c then Some h else back_to c older
  end.

Definition unknown (r : repo) : (exn + string) * repo :=
  (inl (GitCommandError "git: unknown command or arguments"), r).

Definition git_pull (r : repo) : (exn + string) * repo :=
  match pulls r with
  | [] => (inr "Already up to date.", r)
  | inl text :: rest =>
      (inl (GitCommandError text),
       with_remote r (origin_url r) (tracking r) rest)
  | inr cs :: rest =>
      let h := (cs ++ history r)%list in
      (inr "Merge made by the 'ort' strategy.",
       with_remote (with_tree r h (untracked r) (modified r) (staged r) false)
                   (origin_url r)
                   (match h with
                    | [] => tracking r
                    | _ => Some (hexsha (List.length h))
                    end)
                   rest)
  end.

Definition git_checkout (args : list string) (r : repo)
    : (exn + string) * repo :=
  match args with
  | [b] =>
      if mem b (branches r) then (inr "", with_branch r b (branches r))
      else (inl (GitCommandError
                   "error: pathspec did not match any file(s) known to git"), r)
  | [flag; b] =>
      if negb (String.eqb flag "-b") then unknown r
      else if mem b (branches r)
      then (inl (GitCommandError
                   "fatal: a branch with that name already exists"), r)
      else (inr "", with_branch r b (b :: branches r))
  | _ => unknown r
  end.

Definition git_reset (r : repo) : (exn + string) * repo :=
  match reset_error r with
  | Some text => (inl (GitCommandError text), r)
  | None => (inr "", with_tree r (history r) (untracked r) [] [] (head_broken r))
  end.

Definition git (cmd : string) (args : list string) (r : repo)
    : (exn + string) * repo :=
  if String.eqb cmd "pull" then git_pull r
  else if String.eqb cmd "checkout" then git_checkout args r
  else if String.eqb cmd "merge" then (inr "", r)
  else if String.eqb cmd "reset" then git_reset r
  else unknown r.

Definition exec (c : call) : repo -> (exn + ret_type c) * repo :=
  match c as c0 return repo -> (exn + ret_type c0) * repo with
  | Git cmd args => git cmd args
  | IsDirty => fun r => (inr (nonempty (staged r) || nonempty (modified r))%bool, r)
  | ActiveBranchName => fun r => (inr (active r), r)
  | HeadIsValid => fun r => (inr (match head_of r with Some _ => true | None => false end), r)
  | HeadCommit => fun r =>
      match head_of r with
      | Some h => (inr h, r)
      | None => (inl (ValueError "Reference at 'HEAD' does not exist"), r)
      end
  | IndexAdd _ => fun r =>
      (inr tt, with_tree r (history r) []  []
                         (staged r ++ modified r ++ untracked r)%list
                         (head_broken r))
  | IndexDiff (Some rev) => fun r =>
      match head_of r with
      | Some _ => (inr (staged r), r)
      | None => (inl (BadName rev), r)
      end
  | IndexDiff None => fun r => (inr (modified r), r)
  | IndexCommit msg => fun r =>
      (inr tt, with_tree r (mkCommit msg (staged r) :: history r)
                         (untracked r) (modified r) [] false)
  | UntrackedFiles => fun r => (inr (untracked r), r)
  | OriginRefs => fun r =>
      (inr (match tracking r with Some h => [(active r, h)] | None => [] end), r)
  | OriginPush _ => fun r =>
      match push_error r with
      | Some e => (inl e, r)
      | None => (inr tt, with_remote r (origin_url r)
                           (match head_of r with Some h => Some h
                                               | None => tracking r end)
                           (pulls r))
      end
  | OriginSetUrl url => fun r =>
      (inr tt, with_remote r (Some url) (tracking r) (pulls r))
  | HasRemote n => fun r =>
      (inr (String.eqb n "origin" &&
            match origin_url r with Some _ => true | None => false end)%bool, r)
  | CreateRemote _ url => fun r =>
      (inr tt, with_remote r (Some url) (tracking r) (pulls r))
  | IterCommits => fun r =>
      match head_of r with
      | Some _ => (inr (hexshas (history r)), r)
      | None => (inl (ValueError "Reference at 'HEAD' does not exist"), r)
      end
  | HeadReset c wt => fun r =>
      match back_to c (history r) with
      | Some h => (inr tt, with_tree r h (untracked r)
                              (if wt then [] else modified r)
                              (if wt then [] else staged r) false)
      | None => (inl (BadName c), r)
      end
  | RepoInit _ => fun r => (inr tt, with_git_dir r)
  | RepoOpen _ => fun r =>
      if git_dir r then (inr tt, r)
      else (inl (OtherException "InvalidGitRepositoryError"), r)
  | PathExists _ => fun r => (inr (git_dir r), r)
  | FolderNonEmpty _ => fun r =>
      (inr (git_dir r || nonempty (untracked r) || nonempty (modified r)
            || nonempty (staged r))%bool, r)
  | Mkdir _ => fun r => (inr tt, r)
  | DatetimeNow _ => fun r => (inr (clock r), r)
  end.

(** The configuration of the examples. *)
Definition cfg : SyncPairConfig :=
  mkConfig "notes" "/data/notes" "alice/notes" "token" 300 "main"
           "Sync: {timestamp}".

(** A repository on [main] with one commit that the remote already has, and
    a clean working tree. *)
Definition clean : repo :=
  mkRepo true false [mkCommit "Initial commit" ["a.txt"]] [] [] []
         "main" ["main"] (Some "https://token@github.com/alice/notes.git")
         (Some (hexsha 1)) [] None None "2024-05-01 12:00:00".

Definition unreachable : string :=
  "fatal: unable to access 'https://github.com/alice/notes.git/': Could not resolve host: github.com".

Definition conflict : string :=
  "CONFLICT (content): Merge conflict in a.txt; Automatic merge failed; fix conflicts and then commit the result.".

(** [clean] while github.com cannot be reached: the next pull and the push
    fail. *)
Definition offline : repo :=
  mkRepo true false [mkCommit "Initial commit" ["a.txt"]] [] [] []
         "main" ["main"] (Some "https://token@github.com/alice/notes.git")
         (Some (hexsha 1)) [inl unreachable]
         (Some (GitCommandError unreachable)) None "2024-05-01 12:00:00".

(** [clean] before the first push: the remote does not know [main] yet. *)
Definition unpublished : repo :=
  mkRepo true false [mkCommit "Initial commit" ["a.txt"]] [] [] []
         "main" ["main"] (Some "https://token@github.com/alice/notes.git")
         None [] None None "2024-05-01 12:00:00".

(** [clean] when the next pull meets a merge conflict and the one after it
    merges a remote commit. *)
Definition conflicting : repo :=
  mkRepo true false [mkCommit "Initial commit" ["a.txt"]] [] [] []
         "main" ["main"] (Some "https://token@github.com/alice/notes.git")
         (Some (hexsha 1)) [inl conflict; inr [mkCommit "Remote edit" ["a.txt"]]]
         None None "2024-05-01 12:00:00".

(** [clean] with one new file that is not tracked. *)
Definition with_untracked : repo :=
  mkRepo true false [mkCommit "Initial commit" ["a.txt"]] ["draft.txt"] [] []
         "main" ["main"] (Some "https://token@github.com/alice/notes.git")
         (Some (hexsha 1)) [] None None "2024-05-01 12:00:00".

(** An existing repository without any commit, in a folder that holds one
    file. *)
Definition unborn_with_file : repo :=
  mkRepo true false [] ["a.txt"] [] [] "master" [] None None [] None None
         "2024-05-01 12:00:00".

(** An existing repository without any commit, in an empty folder. *)
Definition unborn_empty : repo :=
  mkRepo true false [] [] [] [] "master" [] None None [] None None
         "2024-05-01 12:00:00".

(** [clean] after an edit of the tracked file. *)
Definition edited : repo :=
  mkRepo true false [mkCommit "Initial commit" ["a.txt"]] [] ["a.txt"] []
         "main" ["main"] (Some "https://token@github.com/alice/notes.git")
         (Some (hexsha 1)) [] None None "2024-05-01 12:00:00".

(** [cfg] with a commit message template that names a field other than
    [timestamp]. *)
Definition cfg_unknown_field : SyncPairConfig :=
  mkConfig "notes" "/data/notes" "alice/notes" "token" 300 "main"
           "Sync of {date}".

(** A SyncPair as [__init__] leaves it: never synced, lock free. *)
Definition pair (r : repo) : state repo := mkState r [] [] 0 false.

End Mock.

(** ** Vocabulary of the properties *)

(** A computation is [framed] when it changes neither [last_sync_time] nor
    the lock and only appends to the trace of engine calls. *)
Definition framed {R A} (m : M R A) : Prop :=
  forall s r s', m s = (r, s') ->
    last_sync_time s' = last_sync_time s /\
    sync_lock s' = sync_lock s /\
    exists evs, trace s' = (trace s ++ evs)%list.

(** *** Sequences of calls *)

Section Runs.

Context {R : Type}.
Variable exec : forall c : call, R -> (exn + ret_type c) * R.
Variable cfg : SyncPairConfig.

(** The object after one call of [sync] at each of the clock readings, in
    order, whatever each call returns. *)
Fixpoint run_syncs (times : list Z) (s : state R) : state R :=
  match times with
  | [] => s
  | t :: rest => run_syncs rest (snd (sync exec cfg t s))
  end.

(** *** Concurrent callers

    The contexts that call [sync] on one pair (the watcher thread and the
    scheduler) interleave at the three points where [sync] touches the
    lock: the non-blocking acquire, the body of the outer [try], and the
    release of the [finally]. *)

Inductive caller : Type :=
| Calling      (* in sync(), before acquire(blocking=False) *)
| Holding      (* the acquire succeeded, the body has not run *)
| Releasing    (* the body has run, the finally clause has not *)
| Returned.

Definition in_flight (c : caller) : bool :=
  match c with Holding | Releasing => true | _ => false end.

Definition in_flight_count (cs : list caller) : nat :=
  List.length (filter in_flight cs).

Record system : Type := mkSystem {
  object : state R;
  callers : list caller
}.

Inductive step : system -> system -> Prop :=
| step_acquire s before after :
    sync_lock s = false ->
    step (mkSystem s (before ++ Calling :: after))
         (mkSystem (set_lock true s) (before ++ Holding :: after))
| step_busy s before after :
    sync_lock s = true ->
    step (mkSystem s (before ++ Calling :: after))
         (mkSystem s (before ++ Returned :: after))
| step_body s before after current_time :
    step (mkSystem s (before ++ Holding :: after))
         (mkSystem (snd (sync_locked exec cfg current_time s))
                   (before ++ Releasing :: after))
| step_release s before after :
    step (mkSystem s (before ++ Releasing :: after))
         (mkSystem (set_lock false s) (before ++ Returned :: after)).

Inductive steps : system -> system -> Prop :=
| steps_refl sys : steps sys sys
| steps_next sys1 sys2 sys3 : steps sys1 sys2 -> step sys2 sys3 -> steps sys1 sys3.

(** Before any caller has reached the acquire. *)
Definition initial (sys : system) : Prop :=
  sync_lock (object sys) = false /\ in_flight_count (callers sys) = 0%nat.

(** The lock is held exactly when one caller is between its acquire and its
    release. *)
Definition guard_invariant (sys : system) : Prop :=
  sync_lock (object sys) = false /\ in_flight_count (callers sys) = 0%nat \/
  sync_lock (object sys) = true /\ in_flight_count (callers sys) = 1%nat.

End Runs.

Arguments system : clear implicits.
Arguments mkSystem {R}.
Arguments object {R}.
Arguments callers {R}.

(** A computation [propagates] when it handles nothing: an exception
    raised by any of its engine calls is its own result. *)
Definition propagates {R A} (m : M R A) : Prop :=
  forall s r s', m s = (r, s') ->
    exists evs, trace s' = (trace s ++ evs)%list /\
                forall c e, In (c, Some e) evs -> r = inl e.

(** The exception raised by the last of a list of engine calls. *)
Definition last_raised (evs : list event) : option exn :=
  match rev evs with
  | (_, x) :: _ => x
  | [] => None
  end.

Definition stages_or_commits (ev : event) : bool :=
  (is_index_add (fst ev) || is_index_commit (fst ev))%bool.

Definition pushes (ev : event) : bool := is_push (fst ev).

(** A computation that lets no [GitCommandError] out. *)
Definition catches_git_errors {R A} (m : M R A) : Prop :=
  forall s e s', m s = (inl e, s') -> is_GitCommandError e = false.

(** The outcome that the last engine call of a recovery decides: [True]
    when it answered, [False] when it raised a [GitCommandError], and the
    exception itself when it raised anything else. *)
Definition decided_by_last (evs : list event) (r : exn + bool) : Prop :=
  match last_raised evs with
  | None => r = inr true
  | Some x => if is_GitCommandError x then r = inr false else r = inl x
  end.

(** The warning that the handler of [_pull_changes] logs first. *)
Definition pull_failed_line (cfg : SyncPairConfig) (e : exn) : level * string :=
  (WARNING, "Pull failed for " ++ name cfg ++ ": " ++ str e).

(** A computation whose first engine call is [c]. *)
Definition starts_with {R A} (c : call) (m : M R A) : Prop :=
  forall s r s', m s = (r, s') ->
    exists x rest, trace s' = (trace s ++ (c, x) :: rest)%list.

(** The object after the log line that follows [_pull_changes] in a
    cycle. *)
Definition after_pull_line {R} (cfg : SyncPairConfig) (pulled : bool)
    (s : state R) : state R :=
  snd (when (negb pulled) (log INFO ("No new changes pulled for " ++ name cfg)) s).

(** The error line of the handler of [sync]. *)
Definition sync_error_line (cfg : SyncPairConfig) (e : exn) : level * string :=
  (ERROR, "Sync error for " ++ name cfg ++ ": " ++ str e).

(** The lines of the recovery from a merge conflict. *)
Definition conflict_resolved_line (cfg : SyncPairConfig) : level * string :=
  (INFO, "Successfully resolved conflicts for " ++ name cfg).

Definition conflict_error_line (cfg : SyncPairConfig) (x : exn)
    : level * string :=
  (ERROR, "Failed to resolve conflicts for " ++ name cfg ++ ": " ++ str x).

(** What follows when the reset or the retried pull of the recovery raises
    [x]: a command error is logged as an error and the answer is [False];
    any other exception is the result. *)
Definition recovery_fails {R} (cfg : SyncPairConfig) (x : exn)
    (r : exn + bool) (s' : state R) : Prop :=
  if is_GitCommandError x
  then r = inr false /\ In (conflict_error_line cfg x) (logs s')
  else r = inl x.

(** The engine calls [rest] that follow the abort in the recovery, with
    the result [r]: either the reset answers and the pull is issued once
    more, which decides the result, or the reset raises and is the last
    call. *)
Definition reset_then_retry {R} (cfg : SyncPairConfig) (rest : list event)
    (r : exn + bool) (s' : state R) : Prop :=
  (exists y,
      rest = [(Git "reset" (reset_args cfg), None);
              (Git "pull" (pull_args cfg), y)] /\
      match y with
      | None => r = inr true /\ In (conflict_resolved_line cfg) (logs s')
      | Some x => recovery_fails cfg x r s'
      end) \/
  (exists x,
      rest = [(Git "reset" (reset_args cfg), Some x)] /\
      recovery_fails cfg x r s').

(** The commits among a list of engine calls. *)
Definition commits_made (evs : list event) : nat :=
  List.length (filter (fun ev => is_index_commit (fst ev)) evs).

(** * The rest of [sync_manager.py] *)

(** ** Tokens and pair configurations *)

(** [s.endswith(suffix)] *)
Definition endswith (suffix s : string) : bool :=
  (Nat.leb (String.length suffix) (String.length s) &&
   String.eqb (substring (String.length s - String.length suffix)
                         (String.length suffix) s) suffix)%bool.

(** [s[start:-back]], for [back] at least one *)
Definition slice (start back : nat) (s : string) : string :=
  substring start (String.length s - back - start) s.

(** Python truth value of [os.getenv(..)]: unset and empty are both false. *)
Definition truthy (v : option string) : bool :=
  match v with
  | Some (String _ _) => true
  | _ => false
  end.

(** Lines 335-354; [getenv] is the process environment. *)
Definition _resolve_token (getenv : string -> option string)
    (token_config : string) : exn + string :=
  if (String.prefix "${" token_config && endswith "}" token_config)%bool then
    let env_var := slice 2 1 token_config in
    let token := getenv env_var in
    if negb (truthy token) then
      inl (ValueError ("Environment variable " ++ env_var ++ " not set"))
    else
      match token with Some t => inr t | None => inr EmptyString end
  else inr token_config.

(** An entry of [sync_pairs] in the configuration file, as the dictionary
    that [yaml.safe_load] gives: a key may be missing. *)
Record pair_config : Type := mkPairConfig {
  pc_name : option string;
  pc_local_folder : option string;
  pc_github_repo : option string;
  pc_github_token : option string;
  pc_autocommit_time : option Z;
  pc_branch : option string;
  pc_commit_message_template : option string;
  pc_ignore_patterns : option (list string)
}.

(** [config[key]] *)
Definition subscript {A} (key : string) (v : option A) : exn + A :=
  match v with
  | Some a => inr a
  | None => inl (OtherException ("KeyError: '" ++ key ++ "'"))
  end.

(** [config.get(key, default)] *)
Definition get_default {A} (v : option A) (default : A) : A :=
  match v with Some a => a | None => default end.

(** Lines 280-287: the attributes that [SyncPair.__init__] reads from its
    configuration, in the order of the source. *)
Definition read_config (getenv : string -> option string) (pc : pair_config)
    : exn + SyncPairConfig :=
  match subscript "name" (pc_name pc) with
  | inl e => inl e
  | inr n =>
  match subscript "local_folder" (pc_local_folder pc) with
  | inl e => inl e
  | inr folder =>
  match subscript "github_repo" (pc_github_repo pc) with
  | inl e => inl e
  | inr repo_name =>
  match subscript "github_token" (pc_github_token pc) with
  | inl e => inl e
  | inr token_config =>
  match _resolve_token getenv token_config with
  | inl e => inl e
  | inr token =>
      inr (mkConfig n folder repo_name token
                    (get_default (pc_autocommit_time pc) 300)
                    (get_default (pc_branch pc) "main")
                    (get_default (pc_commit_message_template pc)
                                 "Sync: {timestamp}"))
  end end end end end.

(** ** [_has_changes] and the event handler *)

Section Watching.

Context {R : Type}.
Variable exec : forall c : call, R -> (exn + ret_type c) * R.
Variable cfg : SyncPairConfig.

(** Lines 528-531: the body of the [try]; [or] evaluates its second operand
    only when the first is empty. *)
Definition has_changes_with_head : M R bool :=
  invoke exec HeadCommit ;;;
  d <- invoke exec (IndexDiff (Some "HEAD")) ;;
  if nonempty d then ret true
  else u <- invoke exec UntrackedFiles ;; ret (nonempty u).

(** Lines 532-534: the handler of ValueError and BadName. *)
Definition has_changes_without_head : M R bool :=
  u <- invoke exec UntrackedFiles ;;
  if nonempty u then ret true
  else d <- invoke exec (IndexDiff None) ;; ret (nonempty d).

(** Lines 521-537.  Of the two [except] clauses the first that matches is
    taken, and what a handler raises is not caught by the other. *)
Definition _has_changes : M R bool :=
  try_except has_changes_with_head
    (fun e => (is_ValueError_or_BadName e || is_Exception e)%bool)
    (fun e =>
       if is_ValueError_or_BadName e then has_changes_without_head
       else
         log WARNING ("Error checking for changes in " ++ name cfg ++ ": "
                      ++ str e) ;;;
         ret false).

(** [SyncEventHandler]: its two attributes, and the lines it hands to
    [logger.debug]. *)
Record SyncEventHandler : Type := mkHandler {
  last_event_time : Z;
  debounce_time : Z;
  debug_lines : list string
}.

(** Lines 588-591. *)
Definition new_handler : SyncEventHandler := mkHandler 0 5 [].

(** Lines 593-604; [current_time] is the reading of [time.time()]. *)
Definition _should_trigger_sync (current_time : Z) (h : SyncEventHandler)
    : bool * SyncEventHandler :=
  if debounce_time h <? current_time - last_event_time h then
    (true, mkHandler current_time (debounce_time h) (debug_lines h))
  else (false, h).

Record fs_event : Type := mkFsEvent {
  is_directory : bool;
  src_path : string
}.

(** The body that [on_modified], [on_created] and [on_deleted] share; they
    differ in the word of the debug line.  [event_time] is the reading of
    the clock in [_should_trigger_sync], [sync_time] the later one in
    [sync]. *)
Definition on_event (what : string) (ev : fs_event) (event_time sync_time : Z)
    (h : SyncEventHandler) (s : state R)
    : (exn + unit) * SyncEventHandler * state R :=
  if is_directory ev then (inr tt, h, s)
  else
    let (go, h') := _should_trigger_sync event_time h in
    if go then
      let h'' := mkHandler (last_event_time h') (debounce_time h')
                   (debug_lines h' ++ ["File " ++ what ++ " in " ++ name cfg
                                       ++ ": " ++ src_path ev]) in
      let (r, s') := sync exec cfg sync_time s in
      (r, h'', s')
    else (inr tt, h', s).

(** Lines 606-613. *)
Definition on_modified := on_event "modified".

(** Lines 615-622. *)
Definition on_created := on_event "created".

(** Lines 624-631. *)
Definition on_deleted := on_event "deleted".

(** A file-system event as the observer delivers it. *)
Inductive delivery : Type :=
| Modified (ev : fs_event) (event_time sync_time : Z)
| Created (ev : fs_event) (event_time sync_time : Z)
| Deleted (ev : fs_event) (event_time sync_time : Z).

Definition deliver (d : delivery) (h : SyncEventHandler) (s : state R)
    : (exn + unit) * SyncEventHandler * state R :=
  match d with
  | Modified ev t t' => on_modified ev t t' h s
  | Created ev t t' => on_created ev t t' h s
  | Deleted ev t t' => on_deleted ev t t' h s
  end.

Definition delivery_time (d : delivery) : Z :=
  match d with Modified _ t _ | Created _ t _ | Deleted _ t _ => t end.

Definition delivery_event (d : delivery) : fs_event :=
  match d with Modified ev _ _ | Created ev _ _ | Deleted ev _ _ => ev end.

(** The handler and the pair after a sequence of deliveries, whatever each
    call returns, with the event times at which [sync] was called. *)
Fixpoint deliver_all (ds : list delivery) (h : SyncEventHandler) (s : state R)
    : list Z * SyncEventHandler * state R :=
  match ds with
  | [] => ([], h, s)
  | d :: rest =>
      let '(_, h', s') := deliver d h s in
      let '(times, h'', s'') := deliver_all rest h' s' in
      (if (negb (is_directory (delivery_event d)) &&
           fst (_should_trigger_sync (delivery_time d) h))%bool
       then delivery_time d :: times else times, h'', s'')
  end.

End Watching.

(** ** [SyncManager] *)

Section Manager.

Context {R : Type}.
Variable exec : forall c : call, R -> (exn + ret_type c) * R.
Variable getenv : string -> option string.

(** The repository that is on disk under a local folder when the pairs are
    created. *)
Variable disk : string -> R.

(** A SyncPair object: its configuration and its mutable part. *)
Definition pair : Type := (SyncPairConfig * state R)%type.

(** [SyncPair(pair_config, logger)], lines 272-303. *)
Definition new_SyncPair (pc : pair_config) : exn + pair :=
  match read_config getenv pc with
  | inl e => inl e
  | inr cfg =>
      match __init__ exec cfg (mkState (disk (local_folder cfg)) [] [] 0 false) with
      | (inl e, _) => inl e
      | (inr _, s) => inr (cfg, s)
      end
  end.

(** [d[key] = value] on a dictionary that keeps the order of insertion. *)
Fixpoint dict_set {V} (key : string) (value : V) (d : list (string * V))
    : list (string * V) :=
  match d with
  | [] => [(key, value)]
  | (k, v) :: rest =>
      if String.eqb k key then (key, value) :: rest
      else (k, v) :: dict_set key value rest
  end.

(** [d[key]] *)
Fixpoint dict_get {V} (key : string) (d : list (string * V)) : option V :=
  match d with
  | [] => None
  | (k, v) :: rest => if String.eqb k key then Some v else dict_get key rest
  end.

(** The manager: the registry [self.sync_pairs] and the lines the manager
    itself logs. *)
Record SyncManager : Type := mkManager {
  sync_pairs : list (string * pair);
  manager_logs : list (level * string)
}.

Definition manager_log (l : level) (msg : string) (m : SyncManager)
    : SyncManager :=
  mkManager (sync_pairs m) (manager_logs m ++ [(l, msg)]).

(** Lines 121-134.  The handler formats its line with [pair_config['name']],
    so an entry without a name raises KeyError out of the handler. *)
Fixpoint initialize_sync_pairs (configs : list pair_config) (m : SyncManager)
    : (exn + unit) * SyncManager :=
  match configs with
  | [] => (inr tt, m)
  | pc :: rest =>
      match new_SyncPair pc with
      | inr p =>
          match subscript "name" (pc_name pc) with
          | inr n =>
              initialize_sync_pairs rest
                (manager_log INFO ("Initialized sync pair: " ++ n)
                   (mkManager (dict_set n p (sync_pairs m)) (manager_logs m)))
          | inl e => (inl e, m)
          end
      | inl e =>
          if is_Exception e then
            match subscript "name" (pc_name pc) with
            | inr n =>
                initialize_sync_pairs rest
                  (manager_log ERROR ("Failed to initialize sync pair " ++ n
                                      ++ ": " ++ str e) m)
            | inl e' => (inl e', m)
            end
          else (inl e, m)
      end
  end.



End Manager.

Arguments pair : clear implicits.
Arguments SyncManager : clear implicits.
Arguments mkManager {R}.
Arguments sync_pairs {R}.
Arguments manager_logs {R}.

(** * [cli.py]: the setup command *)

(** [s.split(',')] *)
Fixpoint split_comma (s : string) : list string :=
  match s with
  | EmptyString => [EmptyString]
  | String c rest =>
      if Ascii.eqb c "," then EmptyString :: split_comma rest
      else match split_comma rest with
           | first :: others => String c first :: others
           | [] => [String c EmptyString]
           end
  end.

(** The arguments of [setup], as argparse hands them over. *)
Record setup_args : Type := mkSetupArgs {
  arg_name : string;
  arg_local_folder : string;
  arg_github_repo : string;
  arg_token_env : string;
  arg_autocommit_time : Z;
  arg_branch : string;
  arg_commit_template : string;
  arg_ignore_patterns : option string;
  arg_config : option string
}.

(** [value or default] on an optional string: absent and empty are false. *)
Definition or_default (value : option string) (default : string) : string :=
  match value with
  | Some (String c rest) => String c rest
  | _ => default
  end.

(** Lines 39-48 of cli.py: the dictionary of the new pair. *)
Definition new_pair (args : setup_args) : pair_config :=
  mkPairConfig (Some (arg_name args)) (Some (arg_local_folder args))
    (Some (arg_github_repo args))
    (Some ("${" ++ arg_token_env args ++ "}"))
    (Some (arg_autocommit_time args)) (Some (arg_branch args))
    (Some (arg_commit_template args))
    (Some (match arg_ignore_patterns args with
           | Some (String c rest) => split_comma (String c rest)
           | _ => []
           end)).

Section Cli.

(** The [global] section of a configuration, and the empty one. *)
Variable G : Type.
Variable empty_global : G.

(** A configuration as [yaml.safe_load] gives it: either key may be
    missing. *)
Record config_doc : Type := mkDoc {
  doc_sync_pairs : option (list pair_config);
  doc_global : option G
}.

(** The YAML files by path: [None] when there is no file, [Some None] for a
    file whose document is empty, which loads as Python's [None]. *)
Definition files : Type := string -> option (option config_doc).

(** [yaml.dump(config, f)] on the file at [path] *)
Definition dump (path : string) (config : config_doc) (fs : files) : files :=
  fun p => if String.eqb p path then Some (Some config) else fs p.

(** Lines 23-54 of cli.py, without the lines it prints. *)
Definition setup_command (args : setup_args) (fs : files)
    : (exn + unit) * files :=
  let config_path := or_default (arg_config args) "config.yaml" in
  let loaded :=
    match fs config_path with
    | Some content => content
    | None => Some (mkDoc (Some []) (Some empty_global))
    end in
  match loaded with
  | None =>
      (inl (OtherException "TypeError: 'NoneType' object is not subscriptable"),
       fs)
  | Some config =>
      match subscript "sync_pairs" (doc_sync_pairs config) with
      | inl e => (inl e, fs)
      | inr pairs =>
          (inr tt,
           dump config_path
                (mkDoc (Some (pairs ++ [new_pair args])%list) (doc_global config))
                fs)
      end
  end.

(** [self.config.get('sync_pairs', [])], line 128 of sync_manager.py *)
Definition configured_pairs (config : config_doc) : list pair_config :=
  get_default (doc_sync_pairs config) [].

End Cli.

Arguments mkDoc {G}.
Arguments doc_sync_pairs {G}.
Arguments doc_global {G}.
Arguments dump {G}.
Arguments setup_command {G}.
Arguments configured_pairs {G}.

(** ** More vocabulary *)

(** A computation all of whose engine calls satisfy [P]. *)
Definition only_calls {R A} (P : call -> bool) (m : M R A) : Prop :=
  forall s r s', m s = (r, s') ->
    exists evs, trace s' = (trace s ++ evs)%list /\
                Forall (fun ev => P (fst ev) = true) evs.

(** The calls that change the history, the index, the working tree or the
    branch. *)
Definition is_repair (c : call) : bool :=
  match c with
  | Git _ _ | HeadReset _ _ | IndexAdd _ | IndexCommit _ | IterCommits => true
  | _ => false
  end.

(** The calls that give [origin] the address [url]. *)
Definition sets_origin (url : string) (c : call) : bool :=
  match c with
  | CreateRemote n u => (String.eqb n "origin" && String.eqb u url)%bool
  | OriginSetUrl u => String.eqb u url
  | _ => false
  end.

Definition touches_remotes (c : call) : bool :=
  match c with
  | CreateRemote _ _ | OriginSetUrl _ => true
  | _ => false
  end.

(** A probe of HEAD that raised ValueError or BadName. *)
Definition failed_probe (ev : event) : bool :=
  match ev with
  | (HeadCommit, Some e) => is_ValueError_or_BadName e
  | _ => false
  end.

(** Each time of [l] is more than [d] after the one before it, the first
    more than [d] after [prev]. *)
Fixpoint spaced (d prev : Z) (l : list Z) : Prop :=
  match l with
  | [] => True
  | t :: rest => d < t - prev /\ spaced d t rest
  end.


(** A computation that issues a call satisfying [P] only in a run that
    has an event satisfying [Q]. *)
Definition only_when {R A} (Q : event -> bool) (P : call -> bool)
    (m : M R A) : Prop :=
  forall s r s', m s = (r, s') ->
    exists evs, trace s' = (trace s ++ evs)%list /\
                (Exists (fun ev => P (fst ev) = true) evs ->
                 Exists (fun ev => Q ev = true) evs).

(** The calls of a HEAD repair: listing the commits, resetting, checking
    out. *)
Definition relocates_head (c : call) : bool :=
  match c with
  | IterCommits | HeadReset _ _ => true
  | Git _ _ => true
  | _ => false
  end.

(** The event of a repository being created. *)
Definition created_repository (ev : event) : bool :=
  match ev with
  | (RepoInit _, _) => true
  | _ => false
  end.

(** More repositories and environments for the examples. *)
Module Examples.


(** [Mock.clean] with an edit, when the remote rejects the push. *)
Definition rejected : Mock.repo :=
  Mock.mkRepo true false [Mock.mkCommit "Initial commit" ["a.txt"]] []
    ["a.txt"] [] "main" ["main"]
    (Some "https://token@github.com/alice/notes.git")
    (Some (Mock.hexsha 1)) []
    (Some (GitCommandError "error: failed to push some refs")) None
    "2024-05-01 12:00:00".

(** A folder with one file and no repository; the engine names its first
    branch [master]. *)
Definition fresh_with_file : Mock.repo :=
  Mock.mkRepo false false [] ["a.txt"] [] [] "master" [] None None [] None
    None "2024-05-01 12:00:00".

(** An environment with one token. *)
Definition getenv (var : string) : option string :=
  if String.eqb var "NOTES_TOKEN" then Some "ghp_123" else None.

(** What is on disk: a healthy repository under [/data/notes], nothing
    under any other folder. *)
Definition disk (folder : string) : Mock.repo :=
  if String.eqb folder "/data/notes" then Mock.clean else fresh_with_file.

Definition notes : pair_config :=
  mkPairConfig (Some "notes") (Some "/data/notes") (Some "alice/notes")
    (Some "${NOTES_TOKEN}") None None None None.

(** An entry whose token variable is not set. *)
Definition photos : pair_config :=
  mkPairConfig (Some "photos") (Some "/data/photos") (Some "alice/photos")
    (Some "${PHOTOS_TOKEN}") None None None None.

(** An entry without a name whose token variable is not set. *)
Definition nameless : pair_config :=
  mkPairConfig None (Some "/data/photos") (Some "alice/photos")
    (Some "${PHOTOS_TOKEN}") None None None None.

Definition args : setup_args :=
  mkSetupArgs "notes" "/data/notes" "alice/notes" "NOTES_TOKEN" 300 "main"
    "Sync: {timestamp}" (Some "*.tmp,*.log") None.

Definition no_files : files unit := fun _ => None.

Definition no_remote_branch : string :=
  "fatal: ambiguous argument 'origin/main': unknown revision or path not in the working tree.".

(** [Mock.offline] when the hard reset fails as well. *)
Definition offline_reset_fails : Mock.repo :=
  Mock.mkRepo true false [Mock.mkCommit "Initial commit" ["a.txt"]] [] [] []
    "main" ["main"] (Some "https://token@github.com/alice/notes.git")
    (Some (Mock.hexsha 1)) [inl Mock.unreachable]
    (Some (GitCommandError Mock.unreachable)) (Some no_remote_branch)
    "2024-05-01 12:00:00".

(** [Mock.conflicting] when the hard reset fails. *)
Definition conflict_reset_fails : Mock.repo :=
  Mock.mkRepo true false [Mock.mkCommit "Initial commit" ["a.txt"]] [] [] []
    "main" ["main"] (Some "https://token@github.com/alice/notes.git")
    (Some (Mock.hexsha 1))
    [inl Mock.conflict; inr [Mock.mkCommit "Remote edit" ["a.txt"]]]
    None (Some no_remote_branch) "2024-05-01 12:00:00".

(** An engine on which chosen calls raise. *)
Definition faulty (fault : call -> option exn) (c : call) (r : Mock.repo)
    : (exn + ret_type c) * Mock.repo :=
  match fault c with
  | Some e => (inl e, r)
  | None => Mock.exec c r
  end.

Definition index_lock : exn :=
  GitCommandError "fatal: Unable to create '.git/index.lock': File exists.".

(** Another git process holds the index: [index.diff] raises. *)
Definition index_locked (c : call) : option exn :=
  match c with
  | IndexDiff _ => Some index_lock
  | _ => None
  end.

(** A file of the folder of [Mock.cfg] has changed. *)
Definition file_event : fs_event := mkFsEvent false "/data/notes/a.txt".

(** [Mock.edited] in a pair that completed a sync at 900. *)
Definition synced_at_900 : state Mock.repo := mkState Mock.edited [] [] 900 false.

Definition no_pairs : @SyncManager Mock.repo := mkManager [] [].


End Examples.

(** * Properties *)

(** ** What the steps of a cycle leave alone *)

Create HintDb frame.

Section Frame.

Context {R : Type}.

Lemma framed_ret {A} (a : A) : framed (@ret R A a).
Proof.
  intros s r s' H. inversion H; subst. repeat split.
  exists []. now rewrite app_nil_r.
Qed.

Lemma framed_raise {A} (e : exn) : framed (@raise R A e).
Proof.
  intros s r s' H. inversion H; subst. repeat split.
  exists []. now rewrite app_nil_r.
Qed.

Lemma framed_lift {A} (x : exn + A) : framed (@lift R A x).
Proof.
  intros s r s' H. inversion H; subst. repeat split.
  exists []. now rewrite app_nil_r.
Qed.

Lemma framed_log (l : level) (msg : string) : framed (@log R l msg).
Proof.
  intros s r s' H. inversion H; subst. cbn. repeat split.
  exists []. now rewrite app_nil_r.
Qed.

Lemma framed_invoke exec (c : call) : framed (@invoke R exec c).
Proof.
  intros s r s' H. unfold invoke in H.
  destruct (exec c (repo s)) as [x repo']. inversion H; subst. cbn.
  repeat split. now exists [(c, raised r)].
Qed.

Lemma framed_bind {A B} (m : M R A) (k : A -> M R B) :
  framed m -> (forall a, framed (k a)) -> framed (bind m k).
Proof.
  intros Hm Hk s r s' H. unfold bind in H.
  destruct (m s) as [[e | a] s1] eqn:E.
  - inversion H; subst. exact (Hm _ _ _ E).
  - destruct (Hm _ _ _ E) as (Ht & Hl & evs & Hevs).
    destruct (Hk a _ _ _ H) as (Ht' & Hl' & evs' & Hevs').
    repeat split; try congruence.
    exists (evs ++ evs')%list. rewrite Hevs', Hevs. now rewrite app_assoc.
Qed.

Lemma framed_try_except {A} (body : M R A) catches (handler : exn -> M R A) :
  framed body -> (forall e, framed (handler e)) ->
  framed (try_except body catches handler).
Proof.
  intros Hb Hh s r s' H. unfold try_except in H.
  destruct (body s) as [[e | a] s1] eqn:E.
  - destruct (catches e).
    + destruct (Hb _ _ _ E) as (Ht & Hl & evs & Hevs).
      destruct (Hh e _ _ _ H) as (Ht' & Hl' & evs' & Hevs').
      repeat split; try congruence.
      exists (evs ++ evs')%list. rewrite Hevs', Hevs. now rewrite app_assoc.
    + inversion H; subst. exact (Hb _ _ _ E).
  - inversion H; subst. exact (Hb _ _ _ E).
Qed.

Lemma framed_when (b : bool) (m : M R unit) : framed m -> framed (when b m).
Proof. destruct b; cbn; auto using framed_ret. Qed.

End Frame.

#[local] Hint Resolve framed_ret framed_raise framed_lift framed_log
  framed_invoke framed_when : frame.

(** Decomposes a goal [framed m] along the structure of [m]. *)
Ltac framed :=
  repeat first
    [ apply framed_bind; [ | intro ]
    | apply framed_try_except; [ | intro ]
    | solve [ auto with frame ]
    | match goal with
      | |- framed (if ?b then _ else _) => destruct b
      | |- framed (match ?x with _ => _ end) => destruct x
      end ].

Section FramedSteps.

Context {R : Type}.
Variable exec : forall c : call, R -> (exn + ret_type c) * R.
Variable cfg : SyncPairConfig.

Lemma framed_remote_head : framed (remote_head exec cfg).
Proof. unfold remote_head. framed. Qed.

Lemma framed_stage_and_commit : framed (stage_and_commit exec cfg).
Proof. unfold stage_and_commit. framed. Qed.

Lemma framed_commit_and_push : framed (_commit_and_push exec cfg).
Proof.
  unfold _commit_and_push.
  framed; auto using framed_remote_head, framed_stage_and_commit.
Qed.

Lemma framed_head_hexsha : framed (head_hexsha exec).
Proof. unfold head_hexsha. framed. Qed.

Lemma framed_pull_attempt : framed (pull_attempt exec cfg).
Proof.
  unfold pull_attempt.
  framed; auto using framed_commit_and_push, framed_head_hexsha.
Qed.

Lemma framed_pull_recover e : framed (pull_recover exec cfg e).
Proof.
  unfold pull_recover, recover_conflict, abort_merge, reset_and_retry,
    recover_untracked, recover_other.
  framed.
Qed.

Lemma framed_pull_changes : framed (_pull_changes exec cfg).
Proof.
  unfold _pull_changes. apply framed_try_except.
  - apply framed_pull_attempt.
  - apply framed_pull_recover.
Qed.

End FramedSteps.

(** ** The driver [sync] *)

Section SyncProperties.

Context {R : Type}.
Variable exec : forall c : call, R -> (exn + ret_type c) * R.
Variable cfg : SyncPairConfig.

Lemma set_lock_id (s : state R) b : sync_lock s = b -> set_lock b s = s.
Proof. destruct s; cbn; intros ->; reflexivity. Qed.

Lemma set_lock_twice (s : state R) a b : set_lock b (set_lock a s) = set_lock b s.
Proof. reflexivity. Qed.

(** The inner [try] keeps the lock, only appends to the trace, and either
    keeps the timestamp or sets it to the clock reading. *)
Lemma cycle_steps_framed : framed (cycle_steps exec cfg).
Proof.
  unfold cycle_steps.
  framed; auto using framed_pull_changes, framed_commit_and_push.
Qed.

Lemma sync_cycle_frame t s r s' :
  sync_cycle exec cfg t s = (r, s') ->
  sync_lock s' = sync_lock s /\
  (last_sync_time s' = last_sync_time s \/ last_sync_time s' = t) /\
  exists evs, trace s' = (trace s ++ evs)%list.
Proof.
  unfold sync_cycle, try_except, bind. intros H.
  destruct (cycle_steps exec cfg s) as [[e | []] s1] eqn:Hc;
    destruct (cycle_steps_framed _ _ _ Hc) as (Ht1 & Hl1 & ev1 & He1).
  - destruct (is_Exception e); inversion H; subst; cbn;
      rewrite ?Ht1, ?Hl1, ?He1; eauto.
  - cbn in H. inversion H; subst; cbn. eauto.
Qed.

Lemma sync_locked_frame t s r s' :
  sync_locked exec cfg t s = (r, s') ->
  sync_lock s' = sync_lock s /\
  (last_sync_time s' = last_sync_time s \/
   last_sync_time s' = t /\ autocommit_time cfg <= t - last_sync_time s) /\
  exists evs, trace s' = (trace s ++ evs)%list.
Proof.
  unfold sync_locked. intros H.
  destruct (t - last_sync_time s <? autocommit_time cfg) eqn:Hlt.
  - inversion H; subst. repeat split; auto. exists []. now rewrite app_nil_r.
  - apply Z.ltb_ge in Hlt.
    destruct (sync_cycle_frame _ _ _ _ H) as (Hl & [Ht | Ht] & Hev); auto.
Qed.

End SyncProperties.

Section Guard.

Context {R : Type}.
Variable exec : forall c : call, R -> (exn + ret_type c) * R.
Variable cfg : SyncPairConfig.

Lemma sync_busy t (s : state R) :
  sync_lock s = true -> sync exec cfg t s = (inr tt, s).
Proof. unfold sync. intros ->. reflexivity. Qed.

Lemma sync_free t (s : state R) :
  sync_lock s = false ->
  sync exec cfg t s =
  (fst (sync_locked exec cfg t (set_lock true s)),
   set_lock false (snd (sync_locked exec cfg t (set_lock true s)))).
Proof.
  unfold sync, try_finally. intros ->.
  destruct (sync_locked exec cfg t (set_lock true s)); reflexivity.
Qed.

Lemma sync_releases t (s : state R) :
  sync_lock (snd (sync exec cfg t s)) = sync_lock s.
Proof.
  destruct (sync_lock s) eqn:Hl.
  - now rewrite sync_busy.
  - now rewrite sync_free.
Qed.

Lemma in_flight_count_app before c after :
  in_flight_count (before ++ c :: after) =
  (in_flight_count before + (if in_flight c then 1 else 0)
   + in_flight_count after)%nat.
Proof.
  unfold in_flight_count. rewrite filter_app, length_app. cbn.
  destruct (in_flight c); cbn; lia.
Qed.

Lemma step_guard_invariant sys sys' :
  step exec cfg sys sys' -> guard_invariant sys -> guard_invariant sys'.
Proof.
  unfold guard_invariant.
  intros Hstep; destruct Hstep as [s b a Hl | s b a Hl | s b a t | s b a];
    cbn [object callers]; rewrite !in_flight_count_app;
    cbn [in_flight sync_lock set_lock]; intros [[Hk Hc] | [Hk Hc]];
    try congruence; try lia.
  - right. split; [assumption | lia].
  - destruct (sync_locked exec cfg t s) as [r s'] eqn:E.
    destruct (sync_locked_frame _ _ _ _ _ _ E) as (Hl' & _). cbn [snd].
    right. split; [congruence | lia].
Qed.

Lemma steps_guard_invariant sys sys' :
  steps exec cfg sys sys' -> guard_invariant sys -> guard_invariant sys'.
Proof.
  induction 1 as [| sys1 sys2 sys3 _ IH Hstep]; auto.
  intros H. eapply step_guard_invariant; eauto.
Qed.

(** A call of [sync] alone is a run of the interleaving model. *)
Lemma sync_is_a_run t (s : state R) :
  steps exec cfg (mkSystem s [Calling])
                 (mkSystem (snd (sync exec cfg t s)) [Returned]).
Proof.
  destruct (sync_lock s) eqn:Hl.
  - rewrite sync_busy by assumption. cbn.
    eapply steps_next; [apply steps_refl |].
    exact (step_busy exec cfg s [] [] Hl).
  - rewrite sync_free by assumption. cbn.
    eapply steps_next.
    + eapply steps_next.
      * eapply steps_next; [apply steps_refl |].
        exact (step_acquire exec cfg s [] [] Hl).
      * exact (step_body exec cfg (set_lock true s) [] [] t).
    + exact (step_release exec cfg _ [] []).
Qed.

(** C6: at most one execution of [sync] is in flight per pair.  A call that
    finds the lock held returns at once and leaves the object, the trace of
    engine calls and the log as they were; a call that takes the lock has
    released it when it returns, whether it returns normally or raises; and
    in every interleaving of callers that starts with the lock free, at
    most one caller is between its acquire and its release. *)
Theorem sync_single_flight :
  (forall t (s : state R),
      sync_lock s = true -> sync exec cfg t s = (inr tt, s)) /\
  (forall t (s : state R) r s',
      sync_lock s = false -> sync exec cfg t s = (r, s') ->
      sync_lock s' = false) /\
  (forall sys sys',
      initial sys -> steps exec cfg sys sys' ->
      (in_flight_count (callers sys') <= 1)%nat /\
      (sync_lock (object sys') = true <->
       in_flight_count (callers sys') = 1%nat)) /\
  (forall t (s : state R),
      steps exec cfg (mkSystem s [Calling])
                     (mkSystem (snd (sync exec cfg t s)) [Returned])).
Proof.
  split; [| split; [| split]].
  - apply sync_busy.
  - intros t s r s' Hl H. pose proof (sync_releases t s) as Hr.
    rewrite H in Hr. cbn in Hr. congruence.
  - intros sys sys' [Hl Hc] Hsteps.
    assert (Hinv : guard_invariant sys) by (left; auto).
    destruct (steps_guard_invariant _ _ Hsteps Hinv) as [[Hk Hn] | [Hk Hn]];
      rewrite Hk, Hn; split; try lia; split; intros; congruence.
  - apply sync_is_a_run.
Qed.

(** C5: a call inside the throttling window returns without any engine
    call and leaves the timestamp, the repository, the trace and the log
    untouched, whoever triggers it: between taking and releasing the lock
    nothing happens, so the object after the call is the object before. *)
Theorem sync_rate_limited_is_noop t (s : state R) :
  t - last_sync_time s < autocommit_time cfg ->
  sync exec cfg t s = (inr tt, s) /\
  trace (snd (sync exec cfg t s)) = trace s /\
  last_sync_time (snd (sync exec cfg t s)) = last_sync_time s /\
  (sync_lock s = false ->
   sync_locked exec cfg t (set_lock true s) = (inr tt, set_lock true s)).
Proof.
  intros Hlt.
  assert (Hbody : sync_locked exec cfg t (set_lock true s)
                  = (inr tt, set_lock true s)).
  { unfold sync_locked. cbn. apply Z.ltb_lt in Hlt. now rewrite Hlt. }
  assert (Hsync : sync exec cfg t s = (inr tt, s)).
  { destruct (sync_lock s) eqn:Hl.
    - now apply sync_busy.
    - rewrite sync_free, Hbody by assumption. cbn.
      now rewrite set_lock_twice, set_lock_id. }
  rewrite Hsync. auto.
Qed.

(** One call never lowers the timestamp. *)
Lemma sync_timestamp_step t (s : state R) :
  0 <= autocommit_time cfg ->
  last_sync_time (snd (sync exec cfg t s)) = last_sync_time s \/
  last_sync_time (snd (sync exec cfg t s)) = t /\ last_sync_time s <= t.
Proof.
  intros Hpos. destruct (sync_lock s) eqn:Hl.
  - rewrite sync_busy by assumption. now left.
  - rewrite sync_free by assumption. cbn.
    destruct (sync_locked exec cfg t (set_lock true s)) as [r s'] eqn:E.
    destruct (sync_locked_frame _ _ _ _ _ _ E) as (_ & [Ht | [Ht Hge]] & _);
      cbn in *; [left | right]; auto. split; [assumption | lia].
Qed.

Lemma run_syncs_app times more (s : state R) :
  run_syncs exec cfg (times ++ more) s
  = run_syncs exec cfg more (run_syncs exec cfg times s).
Proof. revert s. induction times as [| t times IH]; cbn; auto. Qed.

Lemma run_syncs_monotone times (s : state R) :
  0 <= autocommit_time cfg ->
  last_sync_time s <= last_sync_time (run_syncs exec cfg times s).
Proof.
  intros Hpos. revert s. induction times as [| t times IH]; intros s; cbn.
  - lia.
  - specialize (IH (snd (sync exec cfg t s))).
    destruct (sync_timestamp_step t s Hpos) as [He | [He Hle]]; lia.
Qed.

(** C9: with a non-negative autocommit interval, along every sequence of
    [sync] calls at arbitrary clock readings each call either leaves
    [last_sync_time] as it is or sets it to a clock reading that is not
    smaller, so the value after a longer sequence is never below the value
    after a shorter one; the two steps of a cycle, called on their own, do
    not touch it. *)
Theorem last_sync_time_never_decreases times (s : state R) :
  0 <= autocommit_time cfg ->
  (forall t,
      let before := run_syncs exec cfg times s in
      let after := snd (sync exec cfg t before) in
      last_sync_time after = last_sync_time before \/
      last_sync_time after = t /\ last_sync_time before <= t) /\
  (forall more,
      last_sync_time (run_syncs exec cfg times s)
      <= last_sync_time (run_syncs exec cfg (times ++ more) s)) /\
  last_sync_time (snd (_pull_changes exec cfg s)) = last_sync_time s /\
  last_sync_time (snd (_commit_and_push exec cfg s)) = last_sync_time s.
Proof.
  intros Hpos. split; [| split; [| split]].
  - intros t. cbv zeta. now apply sync_timestamp_step.
  - intros more. rewrite run_syncs_app. now apply run_syncs_monotone.
  - destruct (_pull_changes exec cfg s) as [r s'] eqn:E.
    now destruct (framed_pull_changes exec cfg _ _ _ E).
  - destruct (_commit_and_push exec cfg s) as [r s'] eqn:E.
    now destruct (framed_commit_and_push exec cfg _ _ _ E).
Qed.

End Guard.

(** ** [_commit_and_push] *)

Section Propagation.

Context {R : Type}.

Lemma propagates_ret {A} (a : A) : propagates (@ret R A a).
Proof.
  intros s r s' H. inversion H; subst. exists []. split.
  - now rewrite app_nil_r.
  - intros c e [].
Qed.

Lemma propagates_raise {A} e : propagates (@raise R A e).
Proof.
  intros s r s' H. inversion H; subst. exists []. split.
  - now rewrite app_nil_r.
  - intros c e' [].
Qed.

Lemma propagates_lift {A} (x : exn + A) : propagates (@lift R A x).
Proof.
  intros s r s' H. inversion H; subst. exists []. split.
  - now rewrite app_nil_r.
  - intros c e [].
Qed.

Lemma propagates_log (l : level) (msg : string) : propagates (@log R l msg).
Proof.
  intros s r s' H. inversion H; subst. exists []. cbn. split.
  - now rewrite app_nil_r.
  - intros c e [].
Qed.

Lemma propagates_invoke exec (c : call) : propagates (@invoke R exec c).
Proof.
  intros s r s' H. unfold invoke in H.
  destruct (exec c (repo s)) as [x repo']. inversion H; subst. cbn.
  exists [(c, raised r)]. split; [reflexivity |].
  intros c' e [Heq | []]. inversion Heq as [[Hc Hr]].
  destruct r; cbn in Hr; congruence.
Qed.

Lemma propagates_bind {A B} (m : M R A) (k : A -> M R B) :
  propagates m -> (forall a, propagates (k a)) -> propagates (bind m k).
Proof.
  intros Hm Hk s r s' H. unfold bind in H.
  destruct (m s) as [[e | a] s1] eqn:E.
  - inversion H; subst. destruct (Hm _ _ _ E) as (evs & Hevs & Hraise).
    exists evs. split; [assumption |].
    intros c e' Hin. specialize (Hraise _ _ Hin). congruence.
  - destruct (Hm _ _ _ E) as (evs & Hevs & Hraise).
    destruct (Hk a _ _ _ H) as (evs' & Hevs' & Hraise').
    exists (evs ++ evs')%list. split.
    + rewrite Hevs', Hevs. now rewrite app_assoc.
    + intros c e Hin. apply in_app_or in Hin as [Hin | Hin].
      * specialize (Hraise _ _ Hin). discriminate.
      * eauto.
Qed.

End Propagation.

Create HintDb propagate.
#[local] Hint Resolve propagates_ret propagates_raise propagates_lift
  propagates_log propagates_invoke : propagate.

Ltac propagates :=
  repeat first
    [ apply propagates_bind; [ | intro ]
    | solve [ auto with propagate ]
    | match goal with
      | |- propagates (if ?b then _ else _) => destruct b
      | |- propagates (match ?x with _ => _ end) => destruct x
      end ].

Section CommitAndPush.

Context {R : Type}.
Variable exec : forall c : call, R -> (exn + ret_type c) * R.
Variable cfg : SyncPairConfig.

Lemma option_eqb_eq (a b : option string) : option_eqb a b = true <-> a = b.
Proof.
  destruct a as [x |], b as [y |]; cbn; try (split; congruence).
  rewrite String.eqb_eq. split; congruence.
Qed.

Lemma propagates_remote_head : propagates (remote_head exec cfg).
Proof. unfold remote_head. propagates. Qed.

Lemma propagates_stage_and_commit : propagates (stage_and_commit exec cfg).
Proof. unfold stage_and_commit. propagates. Qed.

Lemma propagates_commit_and_push : propagates (_commit_and_push exec cfg).
Proof.
  unfold _commit_and_push.
  propagates; auto using propagates_remote_head, propagates_stage_and_commit.
Qed.

(** C3, as the code has it: [_commit_and_push] handles nothing.  The
    exception raised by any of its engine calls (staging, diff, commit,
    listing of the remote references, push) is raised to its caller, and it
    returns a boolean only when no engine call raised. *)
Theorem commit_and_push_propagates s r s' :
  _commit_and_push exec cfg s = (r, s') ->
  exists evs,
    trace s' = (trace s ++ evs)%list /\
    (forall c e, In (c, Some e) evs -> r = inl e) /\
    ((exists b, r = inr b) -> Forall (fun ev => snd ev = None) evs).
Proof.
  intros H. destruct (propagates_commit_and_push _ _ _ H) as (evs & Ht & Hr).
  exists evs. repeat split; auto.
  intros [b ->]. apply Forall_forall. intros [c [e |]] Hin; auto.
  specialize (Hr _ _ Hin). discriminate.
Qed.

(** [stage_and_commit] answers [true] exactly when it issued a commit. *)
Lemma stage_and_commit_committed s committed s1 :
  stage_and_commit exec cfg s = (inr committed, s1) ->
  exists evs, trace s1 = (trace s ++ evs)%list /\
              (committed = true <->
               exists msg, In (IndexCommit msg, None) evs).
Proof.
  unfold stage_and_commit, bind, invoke, lift, log, ret. intros H.
  destruct (exec (IndexAdd "*") (repo s)) as [[e | []] r1] eqn:E1;
    [discriminate |]. cbn in H.
  destruct (exec (IndexDiff (Some "HEAD")) r1) as [[e | d] r2] eqn:E2;
    [discriminate |]. cbn in H.
  destruct (nonempty d); cbn in H.
  - destruct (exec (DatetimeNow "%Y-%m-%d %H:%M:%S") r2) as [[e | ts] r3] eqn:E3;
      [discriminate |]. cbn in H.
    destruct (format (commit_message_template cfg) ts) as [e | msg];
      [discriminate |]. cbn in H.
    destruct (exec (IndexCommit msg) r3) as [[e | []] r4] eqn:E4;
      [discriminate |]. cbn in H.
    inversion H; subst; cbn. rewrite <- !app_assoc. cbn.
    eexists; split; [reflexivity |]. split; auto.
    intros _. exists msg. cbn. auto.
  - inversion H; subst; cbn. rewrite <- !app_assoc. cbn.
    eexists; split; [reflexivity |]. split; [discriminate |].
    intros [msg [Hin | [Hin | []]]]; discriminate.
Qed.

(** C4, as the code has it: when [_commit_and_push] returns, its answer is
    [true] exactly when a commit was made or the tip of [origin/branch]
    read after the push differs from the one read before it, an absent
    reference being read as [None].  So when the remote does not know the
    branch before the push and knows it afterwards, the answer is [true]
    even without a commit; with nothing committed the answer is [false]
    only when the reference is still absent after the push. *)
Theorem commit_and_push_result s b s' :
  _commit_and_push exec cfg s = (inr b, s') ->
  exists committed s1 old s2 s3 new s4,
    stage_and_commit exec cfg s = (inr committed, s1) /\
    (committed = true <->
     exists msg evs, trace s1 = (trace s ++ evs)%list /\
                     In (IndexCommit msg, None) evs) /\
    remote_head exec cfg s1 = (inr old, s2) /\
    invoke exec (OriginPush (branch cfg)) s2 = (inr tt, s3) /\
    remote_head exec cfg s3 = (inr new, s4) /\
    (b = true <-> committed = true \/ old <> new) /\
    (old = None -> (b = false <-> committed = false /\ new = None)).
Proof.
  unfold _commit_and_push at 1. unfold bind at 1. intros H.
  destruct (stage_and_commit exec cfg s) as [[e | committed] s1] eqn:E1;
    [discriminate |].
  unfold bind at 1 in H.
  destruct (remote_head exec cfg s1) as [[e | old] s2] eqn:E2;
    [discriminate |].
  unfold bind at 1 in H.
  destruct (invoke exec (OriginPush (branch cfg)) s2) as [[e | []] s3] eqn:E3;
    [discriminate |].
  unfold bind at 1 in H.
  destruct (remote_head exec cfg s3) as [[e | new] s4] eqn:E4;
    [discriminate |].
  exists committed, s1, old, s2, s3, new, s4.
  assert (Hb : b = (committed || negb (option_eqb old new))%bool).
  { unfold bind in H.
    destruct (option_eqb old new); cbn in H; inversion H; reflexivity. }
  assert (Hneq : negb (option_eqb old new) = true <-> old <> new).
  { rewrite negb_true_iff, <- not_true_iff_false, option_eqb_eq. tauto. }
  split; [reflexivity |]. split; [| split; [assumption |]].
  { destruct (stage_and_commit_committed _ _ _ E1) as (evs & Ht & Hi). split.
    - intros Hc. destruct (proj1 Hi Hc) as [msg Hin]. eauto.
    - intros (msg & evs' & Ht' & Hin). apply Hi. exists msg.
      rewrite Ht in Ht'. apply app_inv_head in Ht'. rewrite Ht'. exact Hin. }
  split; [assumption |]. split; [assumption |]. split.
  - rewrite Hb, orb_true_iff, Hneq. tauto.
  - intros ->. rewrite Hb, orb_false_iff, negb_false_iff, option_eqb_eq.
    split; intros [H1 H2]; split; congruence.
Qed.

End CommitAndPush.

(** ** [_pull_changes] *)

(** Runs the code in [H] one engine call at a time, splitting on whether
    the call answers, raises a [GitCommandError] or raises something else. *)
Ltac run exec H :=
  repeat (cbn in H;
          match type of H with
          | context [exec ?c ?st] =>
              let E := fresh "E" in
              let G := fresh "G" in
              destruct (exec c st) as [[?e | ?v] ?rp] eqn:E;
              [ cbn in H;
                match type of H with
                | context [is_GitCommandError ?x] =>
                    destruct (is_GitCommandError x) eqn:G
                | _ => idtac
                end
              | ]
          end).

(** Like [run], and also splits on the tests of the code. *)
Ltac run_tests exec H :=
  repeat (cbn in H;
          match type of H with
          | context [exec ?c ?st] =>
              let E := fresh "E" in
              destruct (exec c st) as [[?e | ?v] ?rp] eqn:E
          | context [if ?b then _ else _] =>
              let T := fresh "T" in destruct b eqn:T
          end).


Section PullChanges.

Context {R : Type}.
Variable exec : forall c : call, R -> (exn + ret_type c) * R.
Variable cfg : SyncPairConfig.

#[local] Arguments is_GitCommandError : simpl never.
#[local] Arguments is_merge_conflict : simpl never.
#[local] Arguments is_untracked_collision : simpl never.
#[local] Arguments String.append : simpl never.
#[local] Arguments pull_args : simpl never.
#[local] Arguments reset_args : simpl never.

Lemma catches_try_except {A} (body : M R A) (handler : exn -> M R A) :
  (forall e, catches_git_errors (handler e)) ->
  catches_git_errors (try_except body is_GitCommandError handler).
Proof.
  intros Hh s e s' H. unfold try_except in H.
  destruct (body s) as [[e0 | a] s1]; [| discriminate].
  destruct (is_GitCommandError e0) eqn:G.
  - exact (Hh _ _ _ _ H).
  - inversion H; subst. exact G.
Qed.

Lemma catches_bind {A B} (m : M R A) (k : A -> M R B) :
  catches_git_errors m -> (forall a, catches_git_errors (k a)) ->
  catches_git_errors (bind m k).
Proof.
  intros Hm Hk s e s' H. unfold bind in H.
  destruct (m s) as [[e0 | a] s1] eqn:E.
  - inversion H; subst. exact (Hm _ _ _ E).
  - exact (Hk _ _ _ _ H).
Qed.

Lemma catches_ret {A} (a : A) : catches_git_errors (@ret R A a).
Proof. intros s e s' H. discriminate. Qed.

Lemma catches_log l msg : catches_git_errors (@log R l msg).
Proof. intros s e s' H. discriminate. Qed.

Lemma catches_pull_recover e : catches_git_errors (pull_recover exec cfg e).
Proof.
  unfold pull_recover, recover_conflict, abort_merge, reset_and_retry,
    recover_untracked, recover_other.
  apply catches_bind; [apply catches_log | intros _].
  destruct (is_merge_conflict e); [| destruct (is_untracked_collision e)];
    repeat first
      [ apply catches_try_except; intro
      | apply catches_bind; [ | intro ]
      | apply catches_ret
      | apply catches_log ].
Qed.

Lemma catches_pull_changes : catches_git_errors (_pull_changes exec cfg).
Proof. apply catches_try_except, catches_pull_recover. Qed.

(** Closes the goals left by [run] for a recovery: the new events, that
    they are not empty, the outcome, what they do not contain, the log. *)
Ltac recovered H :=
  inversion H; subst; cbn; rewrite <- ?app_assoc; cbn;
  (eexists; split; [reflexivity |]);
  repeat match goal with
    | |- _ /\ _ => split
    | |- _ <> [] => discriminate
    | |- decided_by_last _ _ =>
        unfold decided_by_last, last_raised; cbn;
        repeat match goal with
          | G : is_GitCommandError _ = _ |- _ => rewrite G
          end;
        reflexivity
    | |- Forall _ _ => repeat constructor
    | |- exists ls, _ = (_ ++ ls)%list =>
        first [ eexists; reflexivity | exists []; now rewrite app_nil_r ]
    end.

Lemma recover_conflict_outcome s r s' :
  recover_conflict exec cfg s = (r, s') ->
  exists evs, trace s' = (trace s ++ evs)%list /\ evs <> [] /\
              decided_by_last evs r /\
              Forall (fun ev => pushes ev = false) evs /\
              Forall (fun ev => stages_or_commits ev = false) evs /\
              exists ls, logs s' = (logs s ++ ls)%list.
Proof.
  unfold recover_conflict, abort_merge, reset_and_retry, try_except, bind,
    invoke, log, ret.
  intros H. run exec H; recovered H.
Qed.

Lemma recover_other_outcome s r s' :
  recover_other exec cfg s = (r, s') ->
  exists evs, trace s' = (trace s ++ evs)%list /\ evs <> [] /\
              decided_by_last evs r /\
              Forall (fun ev => pushes ev = false) evs /\
              Forall (fun ev => stages_or_commits ev = false) evs /\
              exists ls, logs s' = (logs s ++ ls)%list.
Proof.
  unfold recover_other, try_except, bind, invoke, log, ret.
  intros H. run exec H; recovered H.
Qed.

Lemma recover_untracked_outcome s r s' :
  recover_untracked exec cfg s = (r, s') ->
  exists evs, trace s' = (trace s ++ evs)%list /\ evs <> [] /\
              decided_by_last evs r /\
              Forall (fun ev => pushes ev = false) evs /\
              exists ls, logs s' = (logs s ++ ls)%list.
Proof.
  unfold recover_untracked, try_except, bind, invoke, log, ret.
  intros H. run exec H; recovered H.
Qed.

Lemma no_stage_in (evs : list event) :
  Forall (fun ev => stages_or_commits ev = false) evs ->
  Exists (fun ev => stages_or_commits ev = true) evs -> False.
Proof.
  intros Hs Hex. apply Exists_exists in Hex as (ev & Hin & Hev).
  rewrite Forall_forall in Hs. specialize (Hs _ Hin). congruence.
Qed.

(** The handler logs the failure, then one of the three recoveries decides
    the outcome; it never pushes, and it stages or commits only in the
    untracked-files branch. *)
Lemma pull_recover_outcome e s r s' :
  pull_recover exec cfg e s = (r, s') ->
  In (pull_failed_line cfg e) (logs s') /\
  exists evs, trace s' = (trace s ++ evs)%list /\ evs <> [] /\
              decided_by_last evs r /\
              Forall (fun ev => pushes ev = false) evs /\
              (Exists (fun ev => stages_or_commits ev = true) evs ->
               is_merge_conflict e = false /\
               is_untracked_collision e = true).
Proof.
  unfold pull_recover, pull_failed_line. unfold bind at 1. unfold log at 1.
  intros H.
  destruct (is_merge_conflict e) eqn:Gc;
    [| destruct (is_untracked_collision e) eqn:Gu].
  - destruct (recover_conflict_outcome _ _ _ H)
      as (evs & Ht & Hne & Hd & Hp & Hs & ls & Hl).
    cbn in Ht, Hl. split.
    + rewrite Hl, <- app_assoc. apply in_or_app. right. now left.
    + exists evs. do 4 (split; [assumption |]).
      intros Hex. destruct (no_stage_in _ Hs Hex).
  - destruct (recover_untracked_outcome _ _ _ H)
      as (evs & Ht & Hne & Hd & Hp & ls & Hl).
    cbn in Ht, Hl. split.
    + rewrite Hl, <- app_assoc. apply in_or_app. right. now left.
    + exists evs. do 4 (split; [assumption |]). auto.
  - destruct (recover_other_outcome _ _ _ H)
      as (evs & Ht & Hne & Hd & Hp & Hs & ls & Hl).
    cbn in Ht, Hl. split.
    + rewrite Hl, <- app_assoc. apply in_or_app. right. now left.
    + exists evs. do 4 (split; [assumption |]).
      intros Hex. destruct (no_stage_in _ Hs Hex).
Qed.

(** C2, as the code has it by design: [_pull_changes] lets no
    [GitCommandError] out.  A command error of the attempt is caught and
    logged as a warning, whatever its message, and the recovery that
    follows issues at least one engine call; when the last of these raises
    a command error, that one is caught as well and the outcome is
    [False].  An attempt that returns gives its answer unchanged, and an
    exception of another class is not handled by [_pull_changes]: it
    reaches the caller. *)
Theorem pull_changes_catches_command_errors :
  (forall s e s',
      _pull_changes exec cfg s = (inl e, s') -> is_GitCommandError e = false) /\
  (forall s e s1 r s',
      pull_attempt exec cfg s = (inl e, s1) ->
      is_GitCommandError e = true ->
      _pull_changes exec cfg s = (r, s') ->
      In (pull_failed_line cfg e) (logs s') /\
      exists evs, trace s' = (trace s1 ++ evs)%list /\ evs <> [] /\
                  forall x, last_raised evs = Some x ->
                            is_GitCommandError x = true -> r = inr false) /\
  (forall s b s1,
      pull_attempt exec cfg s = (inr b, s1) ->
      _pull_changes exec cfg s = (inr b, s1)) /\
  (forall s e s1,
      pull_attempt exec cfg s = (inl e, s1) ->
      is_GitCommandError e = false ->
      _pull_changes exec cfg s = (inl e, s1)).
Proof.
  split; [| split; [| split]].
  - apply catches_pull_changes.
  - intros s e s1 r s' Ha Ge H. unfold _pull_changes, try_except in H.
    rewrite Ha, Ge in H.
    destruct (pull_recover_outcome _ _ _ _ H)
      as (Hlog & evs & Ht & Hne & Hd & _).
    split; [assumption |]. exists evs. split; [assumption |].
    split; [assumption |].
    intros x Hx Gx. unfold decided_by_last in Hd. rewrite Hx, Gx in Hd.
    exact Hd.
  - intros s b s1 Ha. unfold _pull_changes, try_except. now rewrite Ha.
  - intros s e s1 Ha Ge. unfold _pull_changes, try_except. now rewrite Ha, Ge.
Qed.

(** C7, as the code has it: when the attempt fails with a merge conflict,
    the recovery issues [git merge --abort], whose command error is passed
    over, then [git reset --hard origin/branch].  When the reset answers,
    the pull is issued once more and nothing else: the answer is [True]
    when it succeeds.  When the reset raises, no pull is retried.  A
    command error of the reset or of the retried pull is logged as an error
    and the answer is [False]: it does not reach the caller.  An exception
    of another class raised by one of the three commands is not handled:
    it ends the recovery and is the result. *)
Theorem conflict_recovery s e s1 r s' :
  pull_attempt exec cfg s = (inl e, s1) ->
  is_GitCommandError e = true ->
  is_merge_conflict e = true ->
  _pull_changes exec cfg s = (r, s') ->
  exists a rest,
    trace s' = (trace s1 ++ (Git "merge" ["--abort"], a) :: rest)%list /\
    match a with
    | None => reset_then_retry cfg rest r s'
    | Some x =>
        if is_GitCommandError x then reset_then_retry cfg rest r s'
        else rest = [] /\ r = inl x
    end.
Proof.
  intros Ha Ge Gc H. unfold _pull_changes, try_except in H.
  rewrite Ha, Ge in H.
  unfold pull_recover in H. unfold bind at 1 in H. unfold log at 1 in H.
  rewrite Gc in H.
  unfold recover_conflict, abort_merge, reset_and_retry, try_except, bind,
    invoke, log, ret in H.
  run exec H; inversion H; subst; cbn; rewrite <- ?app_assoc; cbn;
    (eexists; eexists; split; [reflexivity |]);
    unfold reset_then_retry, recovery_fails, conflict_error_line,
      conflict_resolved_line; cbn [logs];
    repeat match goal with
      | G : is_GitCommandError _ = _ |- _ => rewrite G
      end;
    first
      [ split; reflexivity
      | left; eexists; split; [reflexivity |]; cbn beta iota;
        repeat match goal with
          | G : is_GitCommandError _ = _ |- _ => rewrite G
          end;
        first [ reflexivity
              | split; [reflexivity |]; apply in_or_app; right; cbn; auto ]
      | right; eexists; split; [reflexivity |]; cbn beta iota;
        repeat match goal with
          | G : is_GitCommandError _ = _ |- _ => rewrite G
          end;
        first [ reflexivity
              | split; [reflexivity |]; apply in_or_app; right; cbn; auto ] ].
Qed.

(** With a clean [is_dirty()], the attempt neither stages, commits nor
    pushes. *)
Lemma clean_attempt_only_pulls s r0 r1 s1 :
  exec IsDirty (repo s) = (inr false, r0) ->
  pull_attempt exec cfg s = (r1, s1) ->
  exists evs, trace s1 = (trace s ++ evs)%list /\
              Forall (fun ev => stages_or_commits ev = false) evs /\
              Forall (fun ev => pushes ev = false) evs.
Proof.
  intros Hd H.
  unfold pull_attempt, head_hexsha, bind, invoke, log, ret in H.
  rewrite Hd in H. run_tests exec H;
    inversion H; subst; cbn; rewrite <- ?app_assoc; cbn;
    (eexists; split; [reflexivity |]); split; repeat constructor.
Qed.

Lemma starts_with_invoke (c : call) : starts_with c (invoke exec c).
Proof.
  intros s r s' H. unfold invoke in H.
  destruct (exec c (repo s)) as [x rp]. inversion H; subst. cbn.
  exists (raised r), []. reflexivity.
Qed.

Lemma starts_with_bind {A B} c (m : M R A) (k : A -> M R B) :
  starts_with c m -> (forall a, framed (k a)) -> starts_with c (bind m k).
Proof.
  intros Hm Hk s r s' H. unfold bind in H.
  destruct (m s) as [[e | a] s1] eqn:E;
    destruct (Hm _ _ _ E) as (x & rest & Ht).
  - inversion H; subst. eauto.
  - destruct (Hk a _ _ _ H) as (_ & _ & evs & Ht').
    exists x, (rest ++ evs)%list. rewrite Ht', Ht, <- app_assoc. reflexivity.
Qed.

(** The first engine call of [_commit_and_push] is the staging. *)
Lemma commit_and_push_starts_with_staging :
  starts_with (IndexAdd "*") (_commit_and_push exec cfg).
Proof.
  unfold _commit_and_push, stage_and_commit.
  apply starts_with_bind.
  - apply starts_with_bind; [apply starts_with_invoke | intro; framed].
  - intro. framed; auto using framed_remote_head.
Qed.

(** C10: when [is_dirty()] answers [False], as it does when the only local
    changes are untracked files, the attempt of [_pull_changes] issues no
    staging, no commit and no push: [_commit_and_push] is not invoked before
    the pull.  In the whole of [_pull_changes] nothing is pushed, and files
    are staged or committed only by the recovery from a collision with
    untracked files; once [_pull_changes] has returned, the cycle goes on
    with the staging of [_commit_and_push]. *)
Theorem untracked_files_do_not_trigger_commit s r0 :
  exec IsDirty (repo s) = (inr false, r0) ->
  (forall r1 s1,
      pull_attempt exec cfg s = (r1, s1) ->
      exists evs, trace s1 = (trace s ++ evs)%list /\
                  Forall (fun ev => stages_or_commits ev = false) evs /\
                  Forall (fun ev => pushes ev = false) evs) /\
  (forall r s',
      _pull_changes exec cfg s = (r, s') ->
      exists evs, trace s' = (trace s ++ evs)%list /\
                  Forall (fun ev => pushes ev = false) evs /\
                  (Exists (fun ev => stages_or_commits ev = true) evs ->
                   exists e s1,
                     pull_attempt exec cfg s = (inl e, s1) /\
                     is_GitCommandError e = true /\
                     is_merge_conflict e = false /\
                     is_untracked_collision e = true)) /\
  (forall pulled s1 r s',
      _pull_changes exec cfg s = (inr pulled, s1) ->
      cycle_steps exec cfg s = (r, s') ->
      exists x rest, trace s' = (trace s1 ++ (IndexAdd "*", x) :: rest)%list).
Proof.
  intros Hd. split; [| split].
  - intros r1 s1. apply clean_attempt_only_pulls with (r0 := r0). exact Hd.
  - intros r s' H. unfold _pull_changes, try_except in H.
    destruct (pull_attempt exec cfg s) as [[e | b] s1] eqn:Ha;
      destruct (clean_attempt_only_pulls _ _ _ _ Hd Ha)
        as (evs1 & Ht1 & Hs1 & Hp1).
    + destruct (is_GitCommandError e) eqn:Ge.
      * destruct (pull_recover_outcome _ _ _ _ H)
          as (_ & evs2 & Ht2 & _ & _ & Hp2 & Hs2).
        exists (evs1 ++ evs2)%list. split; [| split].
        -- rewrite Ht2, Ht1. now rewrite app_assoc.
        -- apply Forall_app. auto.
        -- intros Hex. apply Exists_app in Hex as [Hex | Hex].
           ++ destruct (no_stage_in _ Hs1 Hex).
           ++ destruct (Hs2 Hex) as [Hc Hu]. exists e, s1. auto.
      * inversion H; subst. exists evs1. split; [assumption |].
        split; [assumption |]. intros Hex. destruct (no_stage_in _ Hs1 Hex).
    + inversion H; subst. exists evs1. split; [assumption |].
      split; [assumption |]. intros Hex. destruct (no_stage_in _ Hs1 Hex).
  - intros pulled s1 r s' Hp H. unfold cycle_steps in H.
    unfold bind at 1 in H. rewrite Hp in H. unfold bind at 1 in H.
    assert (Hw : exists s2, when (negb pulled)
                   (log INFO ("No new changes pulled for " ++ name cfg)) s1
                 = (inr tt, s2) /\ trace s2 = trace s1).
    { destruct pulled; cbn; eexists; (split; [reflexivity |]); reflexivity. }
    destruct Hw as (s2 & Hw & Ht2). rewrite Hw in H.
    unfold bind at 1 in H.
    destruct (_commit_and_push exec cfg s2) as [[e | b] s3] eqn:Hc;
      destruct (commit_and_push_starts_with_staging _ _ _ Hc)
        as (x & rest & Ht3); rewrite Ht2 in Ht3.
    + inversion H; subst. eauto.
    + exists x, rest.
      destruct b; cbn in H; inversion H; subst; cbn; exact Ht3.
Qed.

End PullChanges.

(** ** The timestamp of an attempted cycle *)

Section Timestamp.

Context {R : Type}.
Variable exec : forall c : call, R -> (exn + ret_type c) * R.
Variable cfg : SyncPairConfig.

Lemma cycle_steps_pull_raises s e s1 :
  _pull_changes exec cfg s = (inl e, s1) ->
  cycle_steps exec cfg s = (inl e, s1).
Proof. intros H. unfold cycle_steps, bind. now rewrite H. Qed.

Lemma when_log_runs (b : bool) msg (s : state R) :
  when b (log INFO msg) s = (inr tt, snd (when b (log INFO msg) s)).
Proof. destruct b; reflexivity. Qed.

Lemma cycle_steps_push_raises s pulled s1 e s2 :
  _pull_changes exec cfg s = (inr pulled, s1) ->
  _commit_and_push exec cfg (after_pull_line cfg pulled s1) = (inl e, s2) ->
  cycle_steps exec cfg s = (inl e, s2).
Proof.
  intros Hp Hc. unfold cycle_steps. unfold bind at 1. rewrite Hp.
  unfold bind at 1. rewrite when_log_runs. unfold bind at 1.
  unfold after_pull_line in Hc. now rewrite Hc.
Qed.

Lemma cycle_steps_returns s pulled s1 pushed s2 :
  _pull_changes exec cfg s = (inr pulled, s1) ->
  _commit_and_push exec cfg (after_pull_line cfg pulled s1) = (inr pushed, s2) ->
  exists s3, cycle_steps exec cfg s = (inr tt, s3).
Proof.
  intros Hp Hc. unfold cycle_steps. unfold bind at 1. rewrite Hp.
  unfold bind at 1. rewrite when_log_runs. unfold bind at 1.
  unfold after_pull_line in Hc. rewrite Hc. rewrite when_log_runs. eauto.
Qed.

Lemma sync_cycle_completed t (s : state R) s3 :
  cycle_steps exec cfg s = (inr tt, s3) ->
  sync_cycle exec cfg t s =
  (inr tt, mkState (repo s3) (trace s3) (logs s3) t (sync_lock s3)).
Proof.
  intros Hc. unfold sync_cycle, try_except, bind. rewrite Hc. reflexivity.
Qed.

Lemma sync_cycle_failed t (s : state R) e s2 :
  cycle_steps exec cfg s = (inl e, s2) ->
  is_Exception e = true ->
  sync_cycle exec cfg t s =
  (inr tt, mkState (repo s2) (trace s2) (logs s2 ++ [sync_error_line cfg e])
                   (last_sync_time s2) (sync_lock s2)).
Proof.
  intros Hc He. unfold sync_cycle, try_except, bind. rewrite Hc, He.
  reflexivity.
Qed.

Lemma sync_locked_attempt t (s : state R) :
  autocommit_time cfg <= t - last_sync_time s ->
  sync_locked exec cfg t (set_lock true s)
  = sync_cycle exec cfg t (set_lock true s).
Proof.
  intros Hge. unfold sync_locked. cbn [last_sync_time set_lock].
  apply Z.ltb_ge in Hge. now rewrite Hge.
Qed.

Lemma sync_attempt_completed t (s : state R) s3 :
  sync_lock s = false ->
  autocommit_time cfg <= t - last_sync_time s ->
  cycle_steps exec cfg (set_lock true s) = (inr tt, s3) ->
  exists s', sync exec cfg t s = (inr tt, s') /\ last_sync_time s' = t.
Proof.
  intros Hl Hge Hc.
  rewrite sync_free, sync_locked_attempt, (sync_cycle_completed _ _ _ Hc)
    by assumption.
  eexists. split; reflexivity.
Qed.

Lemma sync_attempt_failed t (s : state R) e s2 :
  sync_lock s = false ->
  autocommit_time cfg <= t - last_sync_time s ->
  cycle_steps exec cfg (set_lock true s) = (inl e, s2) ->
  is_Exception e = true ->
  exists s', sync exec cfg t s = (inr tt, s') /\
             last_sync_time s' = last_sync_time s /\
             In (sync_error_line cfg e) (logs s').
Proof.
  intros Hl Hge Hc He.
  rewrite sync_free, sync_locked_attempt, (sync_cycle_failed _ _ _ _ Hc He)
    by assumption.
  destruct (cycle_steps_framed _ _ _ _ _ Hc) as (Ht & _).
  eexists. split; [reflexivity |]. cbn. split; [exact Ht |].
  apply in_or_app. right. now left.
Qed.

(** C1, as the code has it: in a cycle that passes the guard and the
    rate-limit check, [last_sync_time] is set to the clock reading when
    [_pull_changes] and [_commit_and_push] both return, whatever they
    answer, a pull failure that [_pull_changes] handled itself included.
    When one of the two raises into the handler of [sync], the error is
    logged and [last_sync_time] keeps its value. *)
Theorem sync_timestamp_after_attempt t (s : state R) :
  sync_lock s = false ->
  autocommit_time cfg <= t - last_sync_time s ->
  (forall pulled s1 pushed s2,
      _pull_changes exec cfg (set_lock true s) = (inr pulled, s1) ->
      _commit_and_push exec cfg (after_pull_line cfg pulled s1)
        = (inr pushed, s2) ->
      exists s', sync exec cfg t s = (inr tt, s') /\ last_sync_time s' = t) /\
  (forall e s1,
      _pull_changes exec cfg (set_lock true s) = (inl e, s1) ->
      is_Exception e = true ->
      exists s', sync exec cfg t s = (inr tt, s') /\
                 last_sync_time s' = last_sync_time s /\
                 In (sync_error_line cfg e) (logs s')) /\
  (forall pulled s1 e s2,
      _pull_changes exec cfg (set_lock true s) = (inr pulled, s1) ->
      _commit_and_push exec cfg (after_pull_line cfg pulled s1) = (inl e, s2) ->
      is_Exception e = true ->
      exists s', sync exec cfg t s = (inr tt, s') /\
                 last_sync_time s' = last_sync_time s /\
                 In (sync_error_line cfg e) (logs s')).
Proof.
  intros Hl Hge. split; [| split].
  - intros pulled s1 pushed s2 Hp Hc.
    destruct (cycle_steps_returns _ _ _ _ _ Hp Hc) as (s3 & H3).
    eapply sync_attempt_completed; eauto.
  - intros e s1 Hp He.
    eapply sync_attempt_failed; eauto using cycle_steps_pull_raises.
  - intros pulled s1 e s2 Hp Hc He.
    eapply sync_attempt_failed; eauto using cycle_steps_push_raises.
Qed.

End Timestamp.

(** ** Initialization: the repair of HEAD *)

Section HeadRepair.

Context {R : Type}.
Variable exec : forall c : call, R -> (exn + ret_type c) * R.
Variable cfg : SyncPairConfig.

#[local] Arguments is_GitCommandError : simpl never.
#[local] Arguments is_ValueError_or_BadName : simpl never.
#[local] Arguments String.append : simpl never.

Lemma probe_head_unresolved fix_head s e r1 :
  exec HeadCommit (repo s) = (inl e, r1) ->
  is_ValueError_or_BadName e = true ->
  probe_head exec fix_head s
  = fix_head (mkState r1 (trace s ++ [(HeadCommit, Some e)]) (logs s)
                      (last_sync_time s) (sync_lock s)).
Proof.
  intros Hh He. unfold probe_head, try_except, bind, invoke.
  rewrite Hh. cbn. now rewrite He.
Qed.

(** The repair begins by listing the commits, and the listing is not
    guarded: when it raises, the exception leaves the handler of the probe
    after these two engine calls, before anything is reset, staged,
    committed or checked out. *)
Lemma head_repair_stops_at_listing s e r1 e' r2 :
  exec HeadCommit (repo s) = (inl e, r1) ->
  is_ValueError_or_BadName e = true ->
  exec IterCommits r1 = (inl e', r2) ->
  probe_head exec (initialize_git_fix_head exec cfg) s
  = (inl e',
     mkState r2 (trace s ++ [(HeadCommit, Some e); (IterCommits, Some e')])
             (logs s ++ [(INFO, "Repository exists but has no valid HEAD, fixing...")])
             (last_sync_time s) (sync_lock s)) /\
  _ensure_valid_repository exec cfg s
  = (inl e',
     mkState r2 (trace s ++ [(HeadCommit, Some e); (IterCommits, Some e')])
             (logs s ++ [(WARNING, "Invalid HEAD in " ++ name cfg
                                   ++ ", attempting to fix...")])
             (last_sync_time s) (sync_lock s)).
Proof.
  intros Hh He Hi. unfold _ensure_valid_repository.
  rewrite !(probe_head_unresolved _ _ _ _ Hh He).
  unfold initialize_git_fix_head, ensure_valid_fix_head, bind, log, invoke.
  cbn [repo trace logs last_sync_time sync_lock]. rewrite Hi. cbn.
  rewrite <- !app_assoc. split; reflexivity.
Qed.

End HeadRepair.

(** * The code on concrete repositories *)

(** C5 on the clean repository: a call 100 ticks after the last sync, with
    an interval of 300, changes nothing. *)
Lemma sync_rate_limited_is_noop_witness :
  100 - last_sync_time (Mock.pair Mock.clean) < autocommit_time Mock.cfg /\
  sync Mock.exec Mock.cfg 100 (Mock.pair Mock.clean)
  = (inr tt, Mock.pair Mock.clean).
Proof.
  split; [cbn; lia |].
  destruct (sync_rate_limited_is_noop Mock.exec Mock.cfg 100
              (Mock.pair Mock.clean)) as (H & _);
    [cbn; lia | exact H].
Defined.

(** C6 on the clean repository: a call on a held lock is void, a call on a
    free lock leaves it free, and of two callers the one that comes second
    is not in flight. *)
Lemma sync_single_flight_witness :
  sync Mock.exec Mock.cfg 1000 (set_lock true (Mock.pair Mock.clean))
  = (inr tt, set_lock true (Mock.pair Mock.clean)) /\
  sync_lock (snd (sync Mock.exec Mock.cfg 1000 (Mock.pair Mock.clean))) = false /\
  (in_flight_count [Holding; Returned] <= 1)%nat.
Proof.
  destruct (sync_single_flight Mock.exec Mock.cfg) as (Hbusy & Hfree & Hone & _).
  split; [| split].
  - apply Hbusy. reflexivity.
  - apply (Hfree 1000 (Mock.pair Mock.clean)
                 (fst (sync Mock.exec Mock.cfg 1000 (Mock.pair Mock.clean)))).
    + reflexivity.
    + apply surjective_pairing.
  - apply (Hone (mkSystem (Mock.pair Mock.clean) [Calling; Calling])
                (mkSystem (set_lock true (Mock.pair Mock.clean))
                          [Holding; Returned])).
    + split; reflexivity.
    + eapply steps_next.
      * eapply steps_next; [apply steps_refl |].
        exact (step_acquire Mock.exec Mock.cfg (Mock.pair Mock.clean)
                            [] [Calling] eq_refl).
      * exact (step_busy Mock.exec Mock.cfg
                         (set_lock true (Mock.pair Mock.clean))
                         [Holding] [] eq_refl).
Defined.

(** C9 on the clean repository, for calls at 1000, 1100 and 2000. *)
Lemma last_sync_time_never_decreases_witness :
  0 <= autocommit_time Mock.cfg /\
  last_sync_time (run_syncs Mock.exec Mock.cfg [1000; 1100]
                            (Mock.pair Mock.clean))
  <= last_sync_time (run_syncs Mock.exec Mock.cfg ([1000; 1100] ++ [2000])
                               (Mock.pair Mock.clean)).
Proof.
  split; [cbn; lia |].
  destruct (last_sync_time_never_decreases Mock.exec Mock.cfg [1000; 1100]
              (Mock.pair Mock.clean)) as (_ & H & _); [cbn; lia |].
  exact (H [2000]).
Defined.

(** C1 fails while the remote cannot be reached: the cycle at 1000 passes
    the guard and the rate limit, the pull and the push are attempted, the
    push raises, and [last_sync_time] is still 0. *)
Lemma sync_failed_push_keeps_timestamp :
  sync_lock (Mock.pair Mock.offline) = false /\
  autocommit_time Mock.cfg <= 1000 - last_sync_time (Mock.pair Mock.offline) /\
  In (OriginPush "main", Some (GitCommandError Mock.unreachable))
     (trace (snd (sync Mock.exec Mock.cfg 1000 (Mock.pair Mock.offline)))) /\
  last_sync_time (snd (sync Mock.exec Mock.cfg 1000 (Mock.pair Mock.offline)))
  <> 1000.
Proof.
  split; [reflexivity |]. split; [cbn; lia |]. split.
  - vm_compute. do 10 right. left. reflexivity.
  - vm_compute. discriminate.
Qed.

(** The corrected C1 on the clean repository, where both steps return, and
    on the unreachable remote, where the push raises. *)
Lemma sync_timestamp_after_attempt_witness :
  (exists s', sync Mock.exec Mock.cfg 1000 (Mock.pair Mock.clean) = (inr tt, s')
              /\ last_sync_time s' = 1000) /\
  (exists s', sync Mock.exec Mock.cfg 1000 (Mock.pair Mock.offline) = (inr tt, s')
              /\ last_sync_time s' = last_sync_time (Mock.pair Mock.offline)
              /\ In (sync_error_line Mock.cfg (GitCommandError Mock.unreachable))
                    (logs s')).
Proof.
  split.
  - destruct (sync_timestamp_after_attempt Mock.exec Mock.cfg 1000
                (Mock.pair Mock.clean)) as (H & _ & _);
      [reflexivity | cbn; lia |].
    apply (H false
             (snd (_pull_changes Mock.exec Mock.cfg
                     (set_lock true (Mock.pair Mock.clean))))
             false
             (snd (_commit_and_push Mock.exec Mock.cfg
                     (after_pull_line Mock.cfg false
                        (snd (_pull_changes Mock.exec Mock.cfg
                                (set_lock true (Mock.pair Mock.clean))))))));
      vm_compute; reflexivity.
  - destruct (sync_timestamp_after_attempt Mock.exec Mock.cfg 1000
                (Mock.pair Mock.offline)) as (_ & _ & H);
      [reflexivity | cbn; lia |].
    apply (H true
             (snd (_pull_changes Mock.exec Mock.cfg
                     (set_lock true (Mock.pair Mock.offline))))
             (GitCommandError Mock.unreachable)
             (snd (_commit_and_push Mock.exec Mock.cfg
                     (after_pull_line Mock.cfg true
                        (snd (_pull_changes Mock.exec Mock.cfg
                                (set_lock true (Mock.pair Mock.offline))))))));
      vm_compute; reflexivity.
Defined.

(** C2 fails on a dirty tree when the message template names a field
    other than [timestamp]: the commit that precedes the pull raises
    KeyError, which is no command error, and [_pull_changes] lets it reach
    its caller. *)
Lemma pull_raises_other_errors :
  fst (_pull_changes Mock.exec Mock.cfg_unknown_field (Mock.pair Mock.edited))
  = inl (OtherException "KeyError") /\
  is_GitCommandError (OtherException "KeyError") = false /\
  forall b,
    fst (_pull_changes Mock.exec Mock.cfg_unknown_field (Mock.pair Mock.edited))
    <> inr b.
Proof.
  split; [| split].
  - vm_compute. reflexivity.
  - reflexivity.
  - intros b. vm_compute. discriminate.
Qed.

(** The corrected C2 when the remote cannot be reached and the hard reset
    fails as well: both command errors are caught, the first is logged as
    a warning, and the outcome is [False]. *)
Lemma pull_changes_catches_command_errors_witness :
  In (pull_failed_line Mock.cfg (GitCommandError Mock.unreachable))
     (logs (snd (_pull_changes Mock.exec Mock.cfg
                   (Mock.pair Examples.offline_reset_fails)))) /\
  fst (_pull_changes Mock.exec Mock.cfg
         (Mock.pair Examples.offline_reset_fails)) = inr false.
Proof.
  destruct (pull_changes_catches_command_errors Mock.exec Mock.cfg)
    as (_ & H & _).
  destruct (H (Mock.pair Examples.offline_reset_fails)
              (GitCommandError Mock.unreachable)
              (snd (pull_attempt Mock.exec Mock.cfg
                      (Mock.pair Examples.offline_reset_fails)))
              (fst (_pull_changes Mock.exec Mock.cfg
                      (Mock.pair Examples.offline_reset_fails)))
              (snd (_pull_changes Mock.exec Mock.cfg
                      (Mock.pair Examples.offline_reset_fails))))
    as (Hlog & evs & Ht & Hne & Hout).
  - reflexivity.
  - reflexivity.
  - apply surjective_pairing.
  - split; [exact Hlog |].
    apply (Hout (GitCommandError Examples.no_remote_branch)).
    + apply (f_equal (fun l => last_raised (skipn 5 l))) in Ht.
      vm_compute in Ht. 
      exact (eq_sym Ht).
    + reflexivity.
Defined.

(** C3 fails while the remote cannot be reached: the push raises and
    [_commit_and_push] raises with it. *)
Lemma commit_and_push_raises :
  fst (_commit_and_push Mock.exec Mock.cfg (Mock.pair Mock.offline))
  = inl (GitCommandError Mock.unreachable) /\
  forall b, fst (_commit_and_push Mock.exec Mock.cfg (Mock.pair Mock.offline))
            <> inr b.
Proof.
  split; [reflexivity |]. intros b. vm_compute. discriminate.
Qed.

(** The corrected C3 on the unreachable remote. *)
Lemma commit_and_push_propagates_witness :
  exists evs,
    trace (snd (_commit_and_push Mock.exec Mock.cfg (Mock.pair Mock.offline)))
    = (trace (Mock.pair Mock.offline) ++ evs)%list /\
    (forall c e, In (c, Some e) evs ->
       fst (_commit_and_push Mock.exec Mock.cfg (Mock.pair Mock.offline))
       = inl e).
Proof.
  destruct (commit_and_push_propagates Mock.exec Mock.cfg
              (Mock.pair Mock.offline)
              (fst (_commit_and_push Mock.exec Mock.cfg (Mock.pair Mock.offline)))
              (snd (_commit_and_push Mock.exec Mock.cfg (Mock.pair Mock.offline))))
    as (evs & Ht & Hr & _).
  - apply surjective_pairing.
  - exists evs. split; assumption.
Defined.

(** C4 fails before the first push: nothing is committed, the remote does
    not know the branch when its tip is read before the push, and
    [_commit_and_push] answers [True]. *)
Lemma first_push_answers_true :
  fst (stage_and_commit Mock.exec Mock.cfg (Mock.pair Mock.unpublished))
  = inr false /\
  fst (remote_head Mock.exec Mock.cfg
         (snd (stage_and_commit Mock.exec Mock.cfg (Mock.pair Mock.unpublished))))
  = inr None /\
  fst (_commit_and_push Mock.exec Mock.cfg (Mock.pair Mock.unpublished))
  = inr true /\
  fst (_commit_and_push Mock.exec Mock.cfg (Mock.pair Mock.unpublished))
  <> inr false.
Proof.
  repeat split. vm_compute. discriminate.
Qed.

(** The corrected C4 before the first push. *)
Lemma commit_and_push_result_witness :
  exists (committed : bool) (old new : option string),
    fst (stage_and_commit Mock.exec Mock.cfg (Mock.pair Mock.unpublished))
    = inr committed /\
    (true = true <-> committed = true \/ old <> new) /\
    (old = None -> (true = false <-> committed = false /\ new = None)).
Proof.
  destruct (commit_and_push_result Mock.exec Mock.cfg
              (Mock.pair Mock.unpublished) true
              (snd (_commit_and_push Mock.exec Mock.cfg
                      (Mock.pair Mock.unpublished))))
    as (committed & s1 & old & s2 & s3 & new & s4
        & Hs & _ & _ & _ & _ & Hb & Hf).
  - reflexivity.
  - exists committed, old, new. rewrite Hs. auto.
Defined.

(** C7 fails when the hard reset fails: the recovery aborts the merge,
    the reset raises a command error, and the pull is not issued again.
    The pull of the attempt is the only pull of the run, and the answer is
    [False]. *)
Lemma conflict_recovery_without_retry :
  fst (pull_attempt Mock.exec Mock.cfg (Mock.pair Examples.conflict_reset_fails))
  = inl (GitCommandError Mock.conflict) /\
  is_merge_conflict (GitCommandError Mock.conflict) = true /\
  trace (snd (_pull_changes Mock.exec Mock.cfg
                (Mock.pair Examples.conflict_reset_fails)))
  = (trace (snd (pull_attempt Mock.exec Mock.cfg
                   (Mock.pair Examples.conflict_reset_fails)))
     ++ [(Git "merge" ["--abort"], None);
         (Git "reset" (reset_args Mock.cfg),
          Some (GitCommandError Examples.no_remote_branch))])%list /\
  List.length
    (filter (fun ev => is_pull (fst ev))
       (trace (snd (_pull_changes Mock.exec Mock.cfg
                      (Mock.pair Examples.conflict_reset_fails))))) = 1%nat /\
  fst (_pull_changes Mock.exec Mock.cfg
         (Mock.pair Examples.conflict_reset_fails)) = inr false.
Proof. repeat split. Qed.

(** The corrected C7 on a repository whose next pull meets a conflict:
    abort, reset and one more pull, which merges the remote commit. *)
Lemma conflict_recovery_witness :
  exists a rest,
    trace (snd (_pull_changes Mock.exec Mock.cfg (Mock.pair Mock.conflicting)))
    = (trace (snd (pull_attempt Mock.exec Mock.cfg (Mock.pair Mock.conflicting)))
       ++ (Git "merge" ["--abort"], a) :: rest)%list /\
    match a with
    | None =>
        reset_then_retry Mock.cfg rest
          (fst (_pull_changes Mock.exec Mock.cfg (Mock.pair Mock.conflicting)))
          (snd (_pull_changes Mock.exec Mock.cfg (Mock.pair Mock.conflicting)))
    | Some x =>
        if is_GitCommandError x
        then reset_then_retry Mock.cfg rest
               (fst (_pull_changes Mock.exec Mock.cfg
                       (Mock.pair Mock.conflicting)))
               (snd (_pull_changes Mock.exec Mock.cfg
                       (Mock.pair Mock.conflicting)))
        else rest = [] /\
             fst (_pull_changes Mock.exec Mock.cfg (Mock.pair Mock.conflicting))
             = inl x
    end.
Proof.
  apply (conflict_recovery Mock.exec Mock.cfg (Mock.pair Mock.conflicting)
           (GitCommandError Mock.conflict)
           (snd (pull_attempt Mock.exec Mock.cfg (Mock.pair Mock.conflicting)))).
  - reflexivity.
  - reflexivity.
  - reflexivity.
  - apply surjective_pairing.
Defined.

(** C10 on a repository whose only change is an untracked file. *)
Lemma untracked_files_do_not_trigger_commit_witness :
  Mock.exec IsDirty (repo (Mock.pair Mock.with_untracked))
  = (inr false, Mock.with_untracked) /\
  exists evs,
    trace (snd (_pull_changes Mock.exec Mock.cfg (Mock.pair Mock.with_untracked)))
    = (trace (Mock.pair Mock.with_untracked) ++ evs)%list /\
    Forall (fun ev => pushes ev = false) evs.
Proof.
  split; [reflexivity |].
  destruct (untracked_files_do_not_trigger_commit Mock.exec Mock.cfg
              (Mock.pair Mock.with_untracked) Mock.with_untracked)
    as (_ & H & _); [reflexivity |].
  destruct (H (fst (_pull_changes Mock.exec Mock.cfg
                      (Mock.pair Mock.with_untracked)))
              (snd (_pull_changes Mock.exec Mock.cfg
                      (Mock.pair Mock.with_untracked))))
    as (evs & Ht & Hp & _).
  - apply surjective_pairing.
  - exists evs. split; assumption.
Defined.

(** C8 on an existing repository without commits, in an empty folder.  The
    probe of HEAD raises and hands over to the repair; the repair lists the
    commits, which resolves HEAD again and raises ValueError inside the
    handler.  The constructor raises: no commit is made, the branch is not
    checked out, HEAD stays unresolved.  [_ensure_valid_repository] alone
    ends the same way. *)
Theorem unborn_repository_is_not_repaired :
  fst (__init__ Mock.exec Mock.cfg (Mock.pair Mock.unborn_empty))
  = inl (ValueError "Reference at 'HEAD' does not exist") /\
  trace (snd (__init__ Mock.exec Mock.cfg (Mock.pair Mock.unborn_empty)))
  = [(Mkdir "/data/notes", None); (PathExists "/data/notes/.git", None);
     (RepoOpen "/data/notes", None); (HasRemote "origin", None);
     (CreateRemote "origin" (remote_url Mock.cfg), None);
     (HeadCommit, Some (ValueError "Reference at 'HEAD' does not exist"));
     (IterCommits, Some (ValueError "Reference at 'HEAD' does not exist"))] /\
  commits_made
    (trace (snd (__init__ Mock.exec Mock.cfg (Mock.pair Mock.unborn_empty))))
  = 0%nat /\
  Mock.history (repo (snd (__init__ Mock.exec Mock.cfg
                             (Mock.pair Mock.unborn_empty)))) = [] /\
  Mock.active (repo (snd (__init__ Mock.exec Mock.cfg
                            (Mock.pair Mock.unborn_empty)))) = "master" /\
  fst (Mock.exec HeadCommit
         (repo (snd (__init__ Mock.exec Mock.cfg
                       (Mock.pair Mock.unborn_empty)))))
  = inl (ValueError "Reference at 'HEAD' does not exist") /\
  fst (_ensure_valid_repository Mock.exec Mock.cfg
         (Mock.pair Mock.unborn_empty))
  = inl (ValueError "Reference at 'HEAD' does not exist") /\
  commits_made
    (trace (snd (_ensure_valid_repository Mock.exec Mock.cfg
                   (Mock.pair Mock.unborn_empty))))
  = 0%nat.
Proof. repeat split. Qed.

(** * Further properties *)

(** ** Tokens *)

Lemma length_append (a b : string) :
  String.length (a ++ b) = (String.length a + String.length b)%nat.
Proof. induction a as [| c a IH]; cbn; auto. Qed.

Lemma substring_append_middle (a m b : string) :
  substring (String.length a) (String.length m) (a ++ m ++ b) = m.
Proof.
  induction a as [| c a IH]; cbn.
  - induction m as [| c m IHm]; cbn.
    + now destruct b.
    + now rewrite IHm.
  - exact IH.
Qed.

Lemma substring_append_end (a m : string) :
  substring (String.length a) (String.length m) (a ++ m) = m.
Proof.
  pose proof (substring_append_middle a m EmptyString) as H.
  assert (Hm : m ++ "" = m) by (clear; induction m; cbn; congruence).
  now rewrite Hm in H.
Qed.

Lemma endswith_append (a suffix : string) : endswith suffix (a ++ suffix) = true.
Proof.
  unfold endswith. rewrite length_append.
  replace (String.length a + String.length suffix - String.length suffix)%nat
    with (String.length a) by lia.
  rewrite substring_append_end, String.eqb_refl.
  rewrite andb_true_r. apply Nat.leb_le. lia.
Qed.

Lemma slice_placeholder (var : string) : slice 2 1 ("${" ++ var ++ "}") = var.
Proof.
  unfold slice. cbn [String.append String.length substring].
  rewrite length_append. cbn [String.length].
  replace (S (S (String.length var + 1)) - 1 - 2)%nat with (String.length var)
    by lia.
  exact (substring_append_middle EmptyString var "}").
Qed.

Lemma placeholder_recognised (var : string) :
  (String.prefix "${" ("${" ++ var ++ "}")
   && endswith "}" ("${" ++ var ++ "}"))%bool = true.
Proof.
  assert (Hp : String.prefix "${" ("${" ++ var ++ "}") = true).
  { cbn. now destruct (var ++ "}"). }
  assert (He : endswith "}" ("${" ++ var ++ "}") = true).
  { assert (Ha : "${" ++ var ++ "}" = ("${" ++ var) ++ "}") by reflexivity.
    rewrite Ha. apply endswith_append. }
  now rewrite Hp, He.
Qed.

(** X1: a token configured as [${VAR}] resolves to the value of the
    environment variable VAR, and [_resolve_token] raises ValueError, naming
    VAR, when the variable is unset or empty. *)
Theorem resolve_token_placeholder (getenv : string -> option string) var :
  _resolve_token getenv ("${" ++ var ++ "}") =
  match getenv var with
  | Some (String c t) => inr (String c t)
  | _ => inl (ValueError ("Environment variable " ++ var ++ " not set"))
  end.
Proof.
  unfold _resolve_token.
  rewrite placeholder_recognised, slice_placeholder.
  destruct (getenv var) as [[| c t] |]; reflexivity.
Qed.

(** X2: what [setup] writes for a pair is what [SyncPair.__init__] reads:
    the entry built from the arguments gives back their name, folder,
    repository, interval, branch and template, with the token taken from
    the environment variable named on the command line, and ValueError when
    that variable is unset or empty. *)
Theorem setup_pair_reads_back (getenv : string -> option string) args :
  read_config getenv (new_pair args) =
  match getenv (arg_token_env args) with
  | Some (String c t) =>
      inr (mkConfig (arg_name args) (arg_local_folder args)
                    (arg_github_repo args) (String c t)
                    (arg_autocommit_time args) (arg_branch args)
                    (arg_commit_template args))
  | _ => inl (ValueError ("Environment variable " ++ arg_token_env args
                          ++ " not set"))
  end.
Proof.
  unfold read_config, new_pair. cbn [pc_name pc_local_folder pc_github_repo
    pc_github_token pc_autocommit_time pc_branch pc_commit_message_template
    subscript get_default].
  unfold _resolve_token.
  rewrite placeholder_recognised, slice_placeholder.
  destruct (getenv (arg_token_env args)) as [[| c t] |]; reflexivity.
Qed.

(** X3: [setup] keeps what the configuration file holds: the pairs already
    configured stay, in their order, before the new one, the global section
    and every other file are left alone, and a file that does not exist
    yet starts with the new pair alone.  When the file has no [sync_pairs]
    key, or holds an empty document, the command raises and writes
    nothing. *)
Theorem setup_command_keeps_entries {G} (empty_global : G) args
    (fs : files G) :
  let path := or_default (arg_config args) "config.yaml" in
  (forall config pairs,
      fs path = Some (Some config) -> doc_sync_pairs config = Some pairs ->
      exists fs',
        setup_command empty_global args fs = (inr tt, fs') /\
        fs' path = Some (Some (mkDoc (Some (pairs ++ [new_pair args])%list)
                                     (doc_global config))) /\
        forall p, p <> path -> fs' p = fs p) /\
  (fs path = None ->
   exists fs',
     setup_command empty_global args fs = (inr tt, fs') /\
     fs' path = Some (Some (mkDoc (Some [new_pair args]) (Some empty_global))) /\
     forall p, p <> path -> fs' p = fs p) /\
  (forall config,
      fs path = Some (Some config) -> doc_sync_pairs config = None ->
      exists e, setup_command empty_global args fs = (inl e, fs)) /\
  (fs path = Some None ->
   exists e, setup_command empty_global args fs = (inl e, fs)).
Proof.
  intros path. unfold setup_command. fold path.
  assert (Hdump : forall config p, p <> path ->
            dump path config fs p = fs p).
  { intros config p Hp. unfold dump.
    destruct (String.eqb_spec p path); congruence. }
  assert (Hself : forall config, dump path config fs path = Some (Some config)).
  { intros config. unfold dump. now rewrite String.eqb_refl. }
  repeat split.
  - intros config pairs Hf Hp. rewrite Hf. cbn. rewrite Hp. cbn.
    eexists. split; [reflexivity |]. split; [apply Hself | apply Hdump].
  - intros Hf. rewrite Hf. cbn.
    eexists. split; [reflexivity |]. split; [apply Hself | apply Hdump].
  - intros config Hf Hp. rewrite Hf. cbn. rewrite Hp. cbn. eauto.
  - intros Hf. rewrite Hf. eauto.
Qed.

(** ** [sync] and exceptions *)

Section SyncRaises.

Context {R : Type}.
Variable exec : forall c : call, R -> (exn + ret_type c) * R.
Variable cfg : SyncPairConfig.


End SyncRaises.


Lemma setup_command_keeps_entries_witness :
  exists fs',
    setup_command tt Examples.args Examples.no_files = (inr tt, fs') /\
    fs' "config.yaml"
    = Some (Some (mkDoc (Some [new_pair Examples.args]) (Some tt))).
Proof.
  destruct (setup_command_keeps_entries tt Examples.args Examples.no_files)
    as (_ & H & _).
  destruct H as (fs' & Hrun & Hfile & _); [reflexivity |].
  exists fs'. split; assumption.
Defined.

(** ** Computations that issue only some calls *)

Section OnlyCalls.

Context {R : Type}.
Variable P : call -> bool.

Lemma only_calls_ret {A} (a : A) : only_calls P (@ret R A a).
Proof.
  intros s r s' H. inversion H; subst. exists []. split; [| constructor].
  now rewrite app_nil_r.
Qed.

Lemma only_calls_raise {A} e : only_calls P (@raise R A e).
Proof.
  intros s r s' H. inversion H; subst. exists []. split; [| constructor].
  now rewrite app_nil_r.
Qed.

Lemma only_calls_lift {A} (x : exn + A) : only_calls P (@lift R A x).
Proof.
  intros s r s' H. inversion H; subst. exists []. split; [| constructor].
  now rewrite app_nil_r.
Qed.

Lemma only_calls_log l msg : only_calls P (@log R l msg).
Proof.
  intros s r s' H. inversion H; subst. exists []. cbn. split; [| constructor].
  now rewrite app_nil_r.
Qed.

Lemma only_calls_set_time t : only_calls P (@set_last_sync_time R t).
Proof.
  intros s r s' H. inversion H; subst. exists []. cbn. split; [| constructor].
  now rewrite app_nil_r.
Qed.

Lemma only_calls_invoke exec (c : call) :
  P c = true -> only_calls P (@invoke R exec c).
Proof.
  intros Hc s r s' H. unfold invoke in H.
  destruct (exec c (repo s)) as [x repo']. inversion H; subst. cbn.
  exists [(c, raised r)]. split; [reflexivity |]. now repeat constructor.
Qed.

Lemma only_calls_bind {A B} (m : M R A) (k : A -> M R B) :
  only_calls P m -> (forall a, only_calls P (k a)) -> only_calls P (bind m k).
Proof.
  intros Hm Hk s r s' H. unfold bind in H.
  destruct (m s) as [[e | a] s1] eqn:E.
  - inversion H; subst. exact (Hm _ _ _ E).
  - destruct (Hm _ _ _ E) as (evs & Ht & Hf).
    destruct (Hk a _ _ _ H) as (evs' & Ht' & Hf').
    exists (evs ++ evs')%list. split.
    + rewrite Ht', Ht. now rewrite app_assoc.
    + apply Forall_app. auto.
Qed.

Lemma only_calls_try_except {A} (body : M R A) catches
    (handler : exn -> M R A) :
  only_calls P body -> (forall e, only_calls P (handler e)) ->
  only_calls P (try_except body catches handler).
Proof.
  intros Hb Hh s r s' H. unfold try_except in H.
  destruct (body s) as [[e | a] s1] eqn:E.
  - destruct (catches e).
    + destruct (Hb _ _ _ E) as (evs & Ht & Hf).
      destruct (Hh e _ _ _ H) as (evs' & Ht' & Hf').
      exists (evs ++ evs')%list. split.
      * rewrite Ht', Ht. now rewrite app_assoc.
      * apply Forall_app. auto.
    + inversion H; subst. exact (Hb _ _ _ E).
  - inversion H; subst. exact (Hb _ _ _ E).
Qed.

Lemma only_calls_when (b : bool) (m : M R unit) :
  only_calls P m -> only_calls P (when b m).
Proof. destruct b; cbn; auto using only_calls_ret. Qed.

End OnlyCalls.

Create HintDb calls.
#[local] Hint Resolve only_calls_ret only_calls_raise only_calls_lift
  only_calls_log only_calls_set_time only_calls_when : calls.

(** Decomposes a goal [only_calls P m] along the structure of [m]; the
    calls themselves are checked by computation. *)
Ltac only_calls :=
  repeat first
    [ apply only_calls_bind; [ | intro ]
    | apply only_calls_try_except; [ | intro ]
    | apply only_calls_invoke; reflexivity
    | solve [ auto with calls ]
    | match goal with
      | |- only_calls _ (if ?b then _ else _) => destruct b
      | |- only_calls _ (match ?x with _ => _ end) => destruct x
      end ].

(** ** [_has_changes] *)

Section HasChanges.

Context {R : Type}.
Variable exec : forall c : call, R -> (exn + ret_type c) * R.
Variable cfg : SyncPairConfig.

#[local] Arguments is_ValueError_or_BadName : simpl never.
#[local] Arguments is_Exception : simpl never.
#[local] Arguments String.append : simpl never.

Lemma framed_has_changes : framed (_has_changes exec cfg).
Proof.
  unfold _has_changes, has_changes_with_head, has_changes_without_head.
  framed.
Qed.

(** X5: [_has_changes] only looks: its engine calls are the probe of HEAD,
    diffs of the index and the list of untracked files, and it leaves the
    timestamp and the lock alone.  It never stages, commits, pushes, pulls
    or resets. *)
Theorem has_changes_only_reads s r s' :
  _has_changes exec cfg s = (r, s') ->
  last_sync_time s' = last_sync_time s /\
  sync_lock s' = sync_lock s /\
  exists evs,
    trace s' = (trace s ++ evs)%list /\
    Forall (fun ev => fst ev = HeadCommit \/ fst ev = UntrackedFiles \/
                      exists other, fst ev = IndexDiff other) evs.
Proof.
  intros H. destruct (framed_has_changes _ _ _ H) as (Ht & Hl & _).
  split; [assumption |]. split; [assumption |].
  assert (Hq : only_calls
                 (fun c => match c with
                           | HeadCommit | UntrackedFiles | IndexDiff _ => true
                           | _ => false
                           end) (_has_changes exec cfg)).
  { unfold _has_changes, has_changes_with_head, has_changes_without_head.
    only_calls. }
  destruct (Hq _ _ _ H) as (evs & Hevs & Hf).
  exists evs. split; [assumption |].
  eapply Forall_impl; [| exact Hf].
  intros [c x] Hc. cbn in *. destruct c; try discriminate; eauto.
Qed.

(** X6: when HEAD resolves and the engine answers, [_has_changes] is [True]
    exactly when the index differs from HEAD or there are untracked
    files. *)
Theorem has_changes_with_resolved_head s h r1 d r2 u r3 :
  exec HeadCommit (repo s) = (inr h, r1) ->
  exec (IndexDiff (Some "HEAD")) r1 = (inr d, r2) ->
  exec UntrackedFiles r2 = (inr u, r3) ->
  fst (_has_changes exec cfg s) = inr (nonempty d || nonempty u)%bool.
Proof.
  intros Hh Hd Hu.
  unfold _has_changes, has_changes_with_head, try_except, bind, invoke, ret.
  rewrite Hh. cbn. rewrite Hd. cbn.
  destruct (nonempty d); cbn; [reflexivity |].
  rewrite Hu. reflexivity.
Qed.

(** X7: an [Exception] other than ValueError and BadName raised while
    HEAD, the index or the untracked files are read makes [_has_changes]
    answer [False], with a warning.  An exception leaves [_has_changes]
    only when it is outside [Exception], or when it was raised by the
    fallback that runs after a ValueError or BadName. *)
Theorem has_changes_failures :
  (forall s e s1,
      has_changes_with_head exec s = (inl e, s1) ->
      is_Exception e = true -> is_ValueError_or_BadName e = false ->
      exists s',
        _has_changes exec cfg s = (inr false, s') /\
        In (WARNING, "Error checking for changes in " ++ name cfg ++ ": "
                     ++ str e) (logs s')) /\
  (forall s e s',
      _has_changes exec cfg s = (inl e, s') ->
      is_Exception e = false \/
      exists e0 s1,
        has_changes_with_head exec s = (inl e0, s1) /\
        is_ValueError_or_BadName e0 = true /\
        has_changes_without_head exec s1 = (inl e, s')).
Proof.
  split.
  - intros s e s1 Hb He Hv. unfold _has_changes, try_except.
    rewrite Hb, He, Hv. cbn. eexists. split; [reflexivity |].
    cbn. apply in_or_app. right. now left.
  - intros s e s' H. unfold _has_changes, try_except in H.
    destruct (has_changes_with_head exec s) as [[e0 | b] s1] eqn:Hb;
      [| discriminate].
    destruct (is_ValueError_or_BadName e0) eqn:Hv; cbn in H.
    + right. exists e0, s1. auto.
    + destruct (is_Exception e0) eqn:He; cbn in H; [discriminate |].
      left. congruence.
Qed.

End HasChanges.

(** ** More on [_pull_changes] *)

Lemma lower_append (a b : string) : lower (a ++ b) = lower a ++ lower b.
Proof. induction a as [| c a IH]; cbn; congruence. Qed.

Lemma contains_append (needle a b : string) :
  needle <> EmptyString -> contains needle (a ++ needle ++ b) = true.
Proof.
  intros Hne. unfold contains.
  destruct (index 0 needle (a ++ needle ++ b)) eqn:Hi; [reflexivity |].
  exfalso.
  apply (index_correct3 0 (String.length a) needle (a ++ needle ++ b) Hi Hne).
  - apply Nat.le_0_l.
  - apply substring_append_middle.
Qed.

Section PullOnDirtyTree.

Context {R : Type}.
Variable exec : forall c : call, R -> (exn + ret_type c) * R.
Variable cfg : SyncPairConfig.

#[local] Arguments is_GitCommandError : simpl never.
#[local] Arguments is_merge_conflict : simpl never.
#[local] Arguments is_untracked_collision : simpl never.
#[local] Arguments String.append : simpl never.
#[local] Arguments pull_args : simpl never.
#[local] Arguments reset_args : simpl never.

Lemma starts_with_try_except {A} c (body : M R A) catches
    (handler : exn -> M R A) :
  starts_with c body -> (forall e, framed (handler e)) ->
  starts_with c (try_except body catches handler).
Proof.
  intros Hb Hh s r s' H. unfold try_except in H.
  destruct (body s) as [[e | a] s1] eqn:E;
    destruct (Hb _ _ _ E) as (x & rest & Ht).
  - destruct (catches e).
    + destruct (Hh e _ _ _ H) as (_ & _ & evs & Ht').
      exists x, (rest ++ evs)%list. rewrite Ht', Ht, <- app_assoc. reflexivity.
    + inversion H; subst. eauto.
  - inversion H; subst. eauto.
Qed.

(** The state in which [_pull_changes] goes on after [is_dirty()] has
    answered. *)
Lemma pull_attempt_after_is_dirty s dirty r0 :
  exec IsDirty (repo s) = (inr dirty, r0) ->
  invoke exec IsDirty s
  = (inr dirty, mkState r0 (trace s ++ [(IsDirty, None)]) (logs s)
                        (last_sync_time s) (sync_lock s)).
Proof. intros H. unfold invoke. rewrite H. reflexivity. Qed.

(** X8: on a dirty tree the pull comes second: when [is_dirty()] answers
    [True], the engine call that follows it in [_pull_changes] is the
    staging of [_commit_and_push]. *)
Theorem dirty_tree_is_committed_first s r0 r s' :
  exec IsDirty (repo s) = (inr true, r0) ->
  _pull_changes exec cfg s = (r, s') ->
  exists x rest,
    trace s' = (trace s ++ (IsDirty, None) :: (IndexAdd "*", x) :: rest)%list.
Proof.
  intros Hd H. unfold _pull_changes, try_except in H.
  unfold pull_attempt in H. unfold bind at 1 in H.
  rewrite (pull_attempt_after_is_dirty _ _ _ Hd) in H.
  match type of H with
  | context [match ?k ?st with _ => _ end] =>
      assert (Hk : starts_with (IndexAdd "*") k);
      [| destruct (k st) as [x1 s1] eqn:E1;
         destruct (Hk _ _ _ E1) as (x & rest & Ht1); cbn [trace] in Ht1 ]
  end.
  { apply starts_with_bind.
    - apply starts_with_bind.
      + apply commit_and_push_starts_with_staging.
      + intro. apply framed_ret.
    - intro. framed; auto using framed_head_hexsha.
      all: unfold head_hexsha; framed. }
  destruct x1 as [e | b].
  - destruct (is_GitCommandError e).
    + destruct (framed_pull_recover exec cfg e _ _ _ H) as (_ & _ & evs & Ht).
      exists x, (rest ++ evs)%list.
      rewrite Ht, Ht1, <- !app_assoc. reflexivity.
    + inversion H; subst. exists x, rest. rewrite Ht1, <- app_assoc.
      reflexivity.
  - inversion H; subst. exists x, rest. rewrite Ht1, <- app_assoc.
    reflexivity.
Qed.

Lemma commit_and_push_never_pulls :
  only_calls (fun c => negb (is_pull c)) (_commit_and_push exec cfg).
Proof.
  unfold _commit_and_push, stage_and_commit, remote_head. only_calls.
Qed.

Lemma recover_other_runs (st : state R) :
  exists x,
    trace (snd (recover_other exec cfg st))
    = (trace st ++ [(Git "reset" (reset_args cfg), x)])%list /\
    fst (recover_other exec cfg st)
    = match x with
      | None => inr true
      | Some e' => if is_GitCommandError e' then inr false else inl e'
      end.
Proof.
  unfold recover_other, try_except, bind, invoke, log, ret.
  destruct (exec (Git "reset" (reset_args cfg)) (repo st)) as [[e' | v] r2];
    cbn.
  - exists (Some e'). destruct (is_GitCommandError e'); cbn; auto.
  - exists None. auto.
Qed.

(** X9: when the commit-and-push that precedes the pull on a dirty tree
    fails with a command error that names neither a merge conflict nor
    untracked files (a rejected push, an unreachable remote), no pull is
    attempted at all: the only call that follows is the hard reset to
    [origin/branch], and [_pull_changes] answers [True] when that reset
    succeeds. *)
Theorem failed_commit_before_pull_resets s r0 e s1 :
  exec IsDirty (repo s) = (inr true, r0) ->
  _commit_and_push exec cfg
    (mkState r0 (trace s ++ [(IsDirty, None)]) (logs s)
             (last_sync_time s) (sync_lock s)) = (inl e, s1) ->
  is_GitCommandError e = true ->
  is_merge_conflict e = false ->
  is_untracked_collision e = false ->
  exists x evs,
    trace (snd (_pull_changes exec cfg s))
    = (trace s ++ evs ++ [(Git "reset" (reset_args cfg), x)])%list /\
    Forall (fun ev => is_pull (fst ev) = false) evs /\
    fst (_pull_changes exec cfg s)
    = match x with
      | None => inr true
      | Some e' => if is_GitCommandError e' then inr false else inl e'
      end.
Proof.
  intros Hd Hc Ge Gc Gu.
  destruct (commit_and_push_never_pulls _ _ _ Hc) as (evs & Ht & Hf).
  cbn [trace] in Ht.
  assert (Hrun : _pull_changes exec cfg s
                 = recover_other exec cfg
                     (mkState (repo s1) (trace s1)
                              (logs s1 ++ [pull_failed_line cfg e])
                              (last_sync_time s1) (sync_lock s1))).
  { unfold _pull_changes, try_except. unfold pull_attempt. unfold bind at 1.
    rewrite (pull_attempt_after_is_dirty _ _ _ Hd).
    unfold bind at 1. unfold bind at 1. rewrite Hc. rewrite Ge.
    unfold pull_recover. unfold bind at 1. unfold log at 1.
    now rewrite Gc, Gu. }
  rewrite Hrun.
  destruct (recover_other_runs
              (mkState (repo s1) (trace s1)
                       (logs s1 ++ [pull_failed_line cfg e])
                       (last_sync_time s1) (sync_lock s1)))
    as (x & Hx & Hr).
  exists x, ((IsDirty, None) :: evs). cbn [trace] in Hx.
  rewrite Hx, Hr, Ht, <- !app_assoc.
  split; [reflexivity |]. split; [| reflexivity].
  constructor; [reflexivity |].
  eapply Forall_impl; [| exact Hf]. intros ev Hev.
  now apply negb_true_iff in Hev.
Qed.

(** X10: the classification of a pull failure does not depend on the case
    of its text, and the merge conflict comes first: an error whose text
    holds [merge conflict] in any mix of upper and lower case is handled by
    the conflict recovery, whatever else the text says. *)
Theorem conflict_in_any_case before words after s :
  lower words = "merge conflict" ->
  is_merge_conflict (GitCommandError (before ++ words ++ after)) = true /\
  pull_recover exec cfg (GitCommandError (before ++ words ++ after)) s
  = recover_conflict exec cfg
      (mkState (repo s) (trace s)
               (logs s ++ [pull_failed_line cfg
                             (GitCommandError (before ++ words ++ after))])
               (last_sync_time s) (sync_lock s)).
Proof.
  intros Hw.
  assert (Hc : is_merge_conflict (GitCommandError (before ++ words ++ after))
               = true).
  { unfold is_merge_conflict. cbn [str].
    rewrite !lower_append, Hw. apply contains_append. discriminate. }
  split; [exact Hc |].
  unfold pull_recover. unfold bind at 1. unfold log at 1. now rewrite Hc.
Qed.

End PullOnDirtyTree.

(** ** More on initialization *)

Section OnlyWhen.

Context {R : Type}.
Variable Q : event -> bool.
Variable P : call -> bool.

Lemma only_when_only_calls {A} (m : M R A) :
  only_calls (fun c => negb (P c)) m -> only_when Q P m.
Proof.
  intros Hm s r s' H. destruct (Hm _ _ _ H) as (evs & Ht & Hf).
  exists evs. split; [assumption |].
  intros Hex. exfalso. apply Exists_exists in Hex as (ev & Hin & Hp).
  rewrite Forall_forall in Hf. specialize (Hf _ Hin).
  rewrite Hp in Hf. discriminate.
Qed.

Lemma only_when_bind {A B} (m : M R A) (k : A -> M R B) :
  only_when Q P m -> (forall a, only_when Q P (k a)) ->
  only_when Q P (bind m k).
Proof.
  intros Hm Hk s r s' H. unfold bind in H.
  destruct (m s) as [[e | a] s1] eqn:E.
  - inversion H; subst. exact (Hm _ _ _ E).
  - destruct (Hm _ _ _ E) as (evs & Ht & Hf).
    destruct (Hk a _ _ _ H) as (evs' & Ht' & Hf').
    exists (evs ++ evs')%list. split.
    + rewrite Ht', Ht. now rewrite app_assoc.
    + intros Hex. apply Exists_app. apply Exists_app in Hex as [Hex | Hex]; auto.
Qed.

(** Once the first call has made an event satisfying [Q], anything may
    follow. *)
Lemma only_when_first {A} exec (c : call) (k : ret_type c -> M R A) :
  (forall x, Q (c, x) = true) -> (forall a, framed (k a)) ->
  only_when Q P (bind (invoke exec c) k).
Proof.
  intros Hq Hk s r s' H. unfold bind, invoke in H.
  destruct (exec c (repo s)) as [[e | a] r1].
  - inversion H; subst. cbn. exists [(c, Some e)]. split; [reflexivity |].
    intros _. constructor. apply Hq.
  - destruct (Hk a _ _ _ H) as (_ & _ & evs & Ht). cbn in Ht.
    exists ((c, None) :: evs). split.
    + rewrite Ht, <- app_assoc. reflexivity.
    + intros _. constructor. apply Hq.
Qed.

Lemma only_when_probe_head exec (fix_head : M R unit) :
  P HeadCommit = false ->
  (forall e, is_ValueError_or_BadName e = true -> Q (HeadCommit, Some e) = true) ->
  framed fix_head ->
  only_when Q P (probe_head exec fix_head).
Proof.
  intros Hp Hq Hf s r s' H. unfold probe_head, try_except, bind, invoke in H.
  destruct (exec HeadCommit (repo s)) as [[e | h] r1]; cbn in H.
  - destruct (is_ValueError_or_BadName e) eqn:He.
    + destruct (Hf _ _ _ H) as (_ & _ & evs & Ht). cbn in Ht.
      exists ((HeadCommit, Some e) :: evs). split.
      * rewrite Ht, <- app_assoc. reflexivity.
      * intros _. constructor. now apply Hq.
    + inversion H; subst. cbn. exists [(HeadCommit, Some e)].
      split; [reflexivity |]. intros Hex.
      inversion Hex as [? ? Hx | ? ? Hx]; cbn in Hx;
        [congruence | inversion Hx].
  - inversion H; subst. cbn. exists [(HeadCommit, None)].
    split; [reflexivity |]. intros Hex.
    inversion Hex as [? ? Hx | ? ? Hx]; cbn in Hx;
      [congruence | inversion Hx].
Qed.

End OnlyWhen.

Section Construction.

Context {R : Type}.
Variable exec : forall c : call, R -> (exn + ret_type c) * R.
Variable cfg : SyncPairConfig.

#[local] Arguments String.append : simpl never.

Ltac call_steps :=
  repeat first
    [ apply only_calls_bind; [ | intro ]
    | apply only_calls_try_except; [ | intro ]
    | apply only_calls_log | apply only_calls_ret | apply only_calls_raise
    | apply only_calls_set_time
    | match goal with
      | |- only_calls _ (invoke ?e ?c) =>
          exact (only_calls_invoke _ e c eq_refl)
      | |- only_calls _ (if ?b then _ else _) => destruct b
      | |- only_calls _ (match ?x with _ => _ end) => destruct x
      end ].

Ltac frame_steps :=
  repeat first
    [ apply framed_bind; [ | intro ]
    | apply framed_try_except; [ | intro ]
    | apply framed_invoke | apply framed_log | apply framed_ret
    | apply framed_raise
    | match goal with
      | |- framed (invoke ?e ?c) => exact (framed_invoke e c)
      | |- framed (if ?b then _ else _) => destruct b
      | |- framed (match ?x with _ => _ end) => destruct x
      end ].

Lemma framed_checkout_branch : framed (checkout_branch exec cfg).
Proof. unfold checkout_branch. frame_steps. Qed.

Lemma framed_initialize_git_fix_head : framed (initialize_git_fix_head exec cfg).
Proof.
  unfold initialize_git_fix_head. frame_steps; apply framed_checkout_branch.
Qed.

Lemma framed_ensure_valid_fix_head : framed (ensure_valid_fix_head exec cfg).
Proof.
  unfold ensure_valid_fix_head. frame_steps; apply framed_checkout_branch.
Qed.

Lemma framed_probe_head fix_head :
  framed fix_head -> framed (probe_head exec fix_head).
Proof. intro. unfold probe_head. frame_steps. assumption. Qed.

Lemma framed_ensure_valid_repository : framed (_ensure_valid_repository exec cfg).
Proof.
  apply framed_probe_head, framed_ensure_valid_fix_head.
Qed.

Lemma framed_initialize_git : framed (_initialize_git exec cfg).
Proof.
  unfold _initialize_git.
  frame_steps; apply framed_probe_head, framed_initialize_git_fix_head.
Qed.

Lemma only_calls_unlock P :
  only_calls P (fun s : state R => (@inr exn unit tt, set_lock false s)).
Proof.
  intros s r s' H. inversion H; subst. cbn. exists [].
  split; [now rewrite app_nil_r | constructor].
Qed.

(** X11: in the construction of a pair the commits are listed, HEAD is
    reset or a git command is run only in a run in which a probe of HEAD
    has failed with ValueError or BadName. *)
Theorem construction_moves_head_only_in_repair s r s' :
  __init__ exec cfg s = (r, s') ->
  exists evs,
    trace s' = (trace s ++ evs)%list /\
    (Exists (fun ev => relocates_head (fst ev) = true) evs ->
     Exists (fun ev => failed_probe ev = true) evs).
Proof.
  revert s r s'. change (only_when failed_probe relocates_head (__init__ exec cfg)).
  assert (Hprobe : forall fix_head, framed fix_head ->
            only_when failed_probe relocates_head (probe_head exec fix_head)).
  { intros. apply only_when_probe_head; auto. }
  unfold __init__, _initialize_git, _ensure_valid_repository.
  repeat first
    [ apply Hprobe;
      first [ apply framed_initialize_git_fix_head
            | apply framed_ensure_valid_fix_head ]
    | apply only_when_bind; [ | intro ]
    | apply only_when_only_calls;
      solve [ apply only_calls_unlock | call_steps ]
    | match goal with
      | |- only_when _ _ (if ?b then _ else _) => destruct b
      end ].
Qed.

(** X12: the construction of a pair stages, commits, resets or checks out
    only when it has created the repository itself or a probe of HEAD has
    failed: an existing repository whose HEAD resolves is opened, its
    [origin] is given the current address, and nothing else is done to
    it. *)
Theorem construction_spares_healthy_repository s r s' :
  __init__ exec cfg s = (r, s') ->
  exists evs,
    trace s' = (trace s ++ evs)%list /\
    (Exists (fun ev => is_repair (fst ev) = true) evs ->
     Exists (fun ev => (failed_probe ev || created_repository ev)%bool = true)
            evs).
Proof.
  revert s r s'.
  change (only_when (fun ev => (failed_probe ev || created_repository ev)%bool)
                    is_repair (__init__ exec cfg)).
  assert (Hprobe : forall fix_head, framed fix_head ->
            only_when (fun ev => (failed_probe ev || created_repository ev)%bool)
                      is_repair (probe_head exec fix_head)).
  { intros. apply only_when_probe_head; auto.
    intros e He. cbn. now rewrite He. }
  unfold __init__, _initialize_git, _ensure_valid_repository.
  repeat first
    [ apply Hprobe;
      first [ apply framed_initialize_git_fix_head
            | apply framed_ensure_valid_fix_head ]
    | apply only_when_first; [ intro; reflexivity | intro; frame_steps ]
    | apply only_when_bind; [ | intro ]
    | apply only_when_only_calls;
      solve [ apply only_calls_unlock | call_steps ]
    | match goal with
      | |- only_when _ _ (if ?b then _ else _) => destruct b
      end ].
Qed.

Lemma bind_invoke_returns {A} (c : call) (k : ret_type c -> M R A) s a s' :
  bind (invoke exec c) k s = (inr a, s') ->
  exists v s1,
    trace s1 = (trace s ++ [(c, None)])%list /\
    last_sync_time s1 = last_sync_time s /\
    k v s1 = (inr a, s').
Proof.
  unfold bind, invoke. intros H.
  destruct (exec c (repo s)) as [[e | v] r1]; [discriminate |].
  eexists v, _. split; [| split; [| exact H]]; reflexivity.
Qed.

Lemma bind_log_returns {A} l msg (k : unit -> M R A) s a s' :
  bind (log l msg) k s = (inr a, s') ->
  exists s1,
    trace s1 = trace s /\ last_sync_time s1 = last_sync_time s /\
    k tt s1 = (inr a, s').
Proof.
  unfold bind, log. intros H.
  eexists. split; [| split; [| exact H]]; reflexivity.
Qed.

Lemma fresh_rest_spares_remotes :
  only_calls (fun c => negb (touches_remotes c))
    (files <- invoke exec (FolderNonEmpty (local_folder cfg)) ;;
     if files then
       invoke exec (IndexAdd "*") ;;;
       d <- invoke exec (IndexDiff (Some "HEAD")) ;;
       if nonempty d then invoke exec (IndexCommit "Initial commit") else ret tt
     else ret tt).
Proof. call_steps. Qed.

Lemma probe_spares_remotes :
  only_calls (fun c => negb (touches_remotes c))
    (probe_head exec (initialize_git_fix_head exec cfg)).
Proof.
  unfold probe_head, initialize_git_fix_head, checkout_branch. call_steps.
Qed.

(** X13: when [_initialize_git] returns, it has given [origin] its address
    exactly once, by creating the remote or by [set_url], and the address is
    the one built from the token and the repository of the configuration;
    no other call of the run touches the remotes. *)
Theorem initialize_git_sets_origin_once s s' :
  _initialize_git exec cfg s = (inr tt, s') ->
  exists before c after,
    trace s' = (trace s ++ before ++ (c, None) :: after)%list /\
    sets_origin (remote_url cfg) c = true /\
    Forall (fun ev => touches_remotes (fst ev) = false) before /\
    Forall (fun ev => touches_remotes (fst ev) = false) after.
Proof.
  assert (Hneg : forall evs : list event,
            Forall (fun ev => negb (touches_remotes (fst ev)) = true) evs ->
            Forall (fun ev => touches_remotes (fst ev) = false) evs).
  { intros evs. apply Forall_impl. intros ev. now destruct (touches_remotes _). }
  unfold _initialize_git. intros H.
  apply bind_invoke_returns in H as (g & s1 & T1 & _ & H).
  destruct g; cbn [negb] in H.
  - apply bind_log_returns in H as (s2 & T2 & _ & H).
    apply bind_invoke_returns in H as (? & s3 & T3 & _ & H).
    apply bind_invoke_returns in H as (o & s4 & T4 & _ & H).
    destruct o; cbn [negb] in H.
    + apply (bind_invoke_returns (OriginSetUrl (remote_url cfg)))
        in H as (? & s5 & T5 & _ & H).
      destruct (probe_spares_remotes _ _ _ H) as (evs & T6 & Hall).
      exists [(PathExists (local_folder cfg ++ "/.git"), None);
              (RepoOpen (local_folder cfg), None);
              (HasRemote "origin", None)],
             (OriginSetUrl (remote_url cfg)), evs.
      rewrite T6, T5, T4, T3, T2, T1, <- !app_assoc.
      split; [reflexivity |]. split; [apply String.eqb_refl |].
      split; [now repeat constructor | now apply Hneg].
    + apply (bind_invoke_returns (CreateRemote "origin" (remote_url cfg)))
        in H as (? & s5 & T5 & _ & H).
      destruct (probe_spares_remotes _ _ _ H) as (evs & T6 & Hall).
      exists [(PathExists (local_folder cfg ++ "/.git"), None);
              (RepoOpen (local_folder cfg), None);
              (HasRemote "origin", None)],
             (CreateRemote "origin" (remote_url cfg)), evs.
      rewrite T6, T5, T4, T3, T2, T1, <- !app_assoc.
      split; [reflexivity |]. split; [cbn; apply String.eqb_refl |].
      split; [now repeat constructor | now apply Hneg].
  - apply bind_log_returns in H as (s2 & T2 & _ & H).
    apply bind_invoke_returns in H as (? & s3 & T3 & _ & H).
    apply bind_invoke_returns in H as (? & s4 & T4 & _ & H).
    destruct (fresh_rest_spares_remotes _ _ _ H) as (evs & T5 & Hall).
    exists [(PathExists (local_folder cfg ++ "/.git"), None);
            (RepoInit (local_folder cfg), None)],
           (CreateRemote "origin" (remote_url cfg)), evs.
    rewrite T5, T4, T3, T2, T1, <- !app_assoc.
    split; [reflexivity |]. split; [cbn; apply String.eqb_refl |].
    split; [now repeat constructor | now apply Hneg].
Qed.

Lemma cycle_starts_with_is_dirty :
  starts_with IsDirty (cycle_steps exec cfg).
Proof.
  unfold cycle_steps. apply starts_with_bind.
  - unfold _pull_changes. apply starts_with_try_except.
    + unfold pull_attempt. apply starts_with_bind; [apply starts_with_invoke |].
      intro. framed; auto using framed_commit_and_push, framed_head_hexsha.
    + intro. apply framed_pull_recover.
  - intro. framed; auto using framed_commit_and_push.
Qed.

Lemma construction_leaves_pair_idle s s' :
  __init__ exec cfg s = (inr tt, s') ->
  last_sync_time s' = 0 /\ sync_lock s' = false.
Proof.
  unfold __init__, bind. intros H.
  destruct (invoke exec (Mkdir (local_folder cfg)) s) as [[e | ?] s1];
    [discriminate |].
  destruct (_initialize_git exec cfg s1) as [[e | ?] s2]; [discriminate |].
  cbn in H.
  destruct (_ensure_valid_repository exec cfg _) as [[e | ?] s3] eqn:E;
    [discriminate |].
  destruct (framed_ensure_valid_repository _ _ _ E) as (Ht & _).
  inversion H; subst. cbn. split; [exact Ht | reflexivity].
Qed.

(** X14: the first [sync] of a pair is never held back by the interval:
    construction leaves the time of the last sync at 0 and the lock free,
    so a first [sync] at a clock reading of at least [autocommit_time]
    starts a cycle, whose first engine call is [is_dirty()]. *)
Theorem first_sync_is_not_throttled s s' t r s'' :
  __init__ exec cfg s = (inr tt, s') ->
  autocommit_time cfg <= t ->
  sync exec cfg t s' = (r, s'') ->
  exists x rest, trace s'' = (trace s' ++ (IsDirty, x) :: rest)%list.
Proof.
  intros Hinit Ht Hsync.
  destruct (construction_leaves_pair_idle _ _ Hinit) as (Hl & Hfree).
  rewrite (sync_free exec cfg _ _ Hfree) in Hsync.
  rewrite sync_locked_attempt in Hsync by (rewrite Hl; lia).
  inversion Hsync; subst; clear Hsync. cbn [trace set_lock].
  unfold sync_cycle, try_except, bind.
  destruct (cycle_steps exec cfg (set_lock true s')) as [[e | []] s1] eqn:E;
    destruct (cycle_starts_with_is_dirty _ _ _ E) as (x & rest & T);
    cbn [trace set_lock] in T.
  - destruct (is_Exception e); cbn; eauto.
  - cbn. eauto.
Qed.

End Construction.

(** ** The event handler *)

Section Handler.

Context {R : Type}.
Variable exec : forall c : call, R -> (exn + ret_type c) * R.
Variable cfg : SyncPairConfig.

#[local] Arguments String.append : simpl never.

(** A [sync] that finds the lock held, or the interval not elapsed, leaves
    the pair as it is. *)
Lemma sync_idle t (s : state R) :
  sync_lock s = true \/ t - last_sync_time s < autocommit_time cfg ->
  sync exec cfg t s = (inr tt, s).
Proof.
  intros H. destruct (sync_lock s) eqn:Hl.
  - now apply sync_busy.
  - destruct H as [H | H]; [discriminate |].
    rewrite sync_free by assumption. unfold sync_locked.
    cbn [last_sync_time set_lock]. apply Z.ltb_lt in H. rewrite H.
    destruct s; cbn in Hl; subst; reflexivity.
Qed.

(** X15: what it takes for a file-system event to change anything in the
    pair.  If [on_modified], [on_created] or [on_deleted] leaves the pair
    different from what it was, then the event was not about a directory,
    more than [debounce_time] had passed since the last event that got
    through, the lock was free, and the interval [autocommit_time] had
    elapsed since the last completed sync. *)
Theorem handler_acts_only_when_due what ev t t' h (s : state R) r h' s' :
  on_event exec cfg what ev t t' h s = (r, h', s') ->
  s' <> s ->
  is_directory ev = false /\
  debounce_time h < t - last_event_time h /\
  sync_lock s = false /\
  autocommit_time cfg <= t' - last_sync_time s.
Proof.
  unfold on_event, _should_trigger_sync. intros H Hne.
  destruct (is_directory ev); [inversion H; subst; now elim Hne |].
  destruct (debounce_time h <? t - last_event_time h) eqn:Hd;
    [| inversion H; subst; now elim Hne].
  apply Z.ltb_lt in Hd.
  destruct (sync exec cfg t' s) as [r1 s1] eqn:Hs. inversion H; subst.
  destruct (sync_lock s) eqn:Hl.
  - rewrite sync_idle in Hs by auto. inversion Hs; subst. now elim Hne.
  - destruct (Z.lt_ge_cases (t' - last_sync_time s) (autocommit_time cfg))
      as [Hlt | Hge]; [| auto].
    rewrite sync_idle in Hs by auto. inversion Hs; subst. now elim Hne.
Qed.

(** X16: an event that comes while the pair is rate-limited is lost.  It
    gets through the debounce test and restarts the debounce window, its
    [sync] does nothing, and every event of the next [debounce_time]
    seconds is dropped without a call of [sync], even if the interval has
    elapsed by then. *)
Theorem event_in_throttled_window_is_lost what ev t t' h (s : state R) :
  is_directory ev = false ->
  debounce_time h < t - last_event_time h ->
  t' - last_sync_time s < autocommit_time cfg ->
  exists h',
    on_event exec cfg what ev t t' h s = (inr tt, h', s) /\
    last_event_time h' = t /\
    debounce_time h' = debounce_time h /\
    forall what2 ev2 t2 t2',
      t2 - t <= debounce_time h ->
      on_event exec cfg what2 ev2 t2 t2' h' s = (inr tt, h', s).
Proof.
  intros Hf Hd Hlt. unfold on_event at 1, _should_trigger_sync.
  rewrite Hf. apply Z.ltb_lt in Hd. rewrite Hd.
  rewrite sync_idle by auto.
  eexists. split; [reflexivity |]. split; [reflexivity |].
  split; [reflexivity |].
  intros what2 ev2 t2 t2' Hin. unfold on_event, _should_trigger_sync.
  cbn [last_event_time debounce_time].
  destruct (is_directory ev2); [reflexivity |].
  apply Z.ltb_ge in Hin. rewrite Hin. reflexivity.
Qed.

Lemma deliver_handler d h (s : state R) :
  let h' := snd (fst (deliver exec cfg d h s)) in
  debounce_time h' = debounce_time h /\
  if (negb (is_directory (delivery_event d)) &&
      fst (_should_trigger_sync (delivery_time d) h))%bool
  then debounce_time h < delivery_time d - last_event_time h /\
       last_event_time h' = delivery_time d /\
       length (debug_lines h') = S (length (debug_lines h))
  else h' = h.
Proof.
  destruct d as [ev t t' | ev t t' | ev t t']; cbn;
    unfold on_modified, on_created, on_deleted, on_event, _should_trigger_sync;
    (destruct (is_directory ev); cbn; [split; reflexivity |]);
    (destruct (debounce_time h <? t - last_event_time h) eqn:Hd; cbn;
     [| split; reflexivity]);
    destruct (sync exec cfg t' s); cbn; apply Z.ltb_lt in Hd;
    rewrite length_app, Nat.add_comm; cbn; auto.
Qed.

(** X17: debouncing, over any sequence of events.  The events that reach
    [sync] are spaced: each has its clock reading more than [debounce_time]
    after that of the one before it, the first more than [debounce_time]
    after the handler's [last_event_time].  Each of them, and no other
    event, leaves one debug line, and [debounce_time] is never changed. *)
Theorem deliveries_are_debounced ds h (s : state R) :
  spaced (debounce_time h) (last_event_time h)
         (fst (fst (deliver_all exec cfg ds h s))) /\
  length (debug_lines (snd (fst (deliver_all exec cfg ds h s)))) =
    (length (debug_lines h) +
     length (fst (fst (deliver_all exec cfg ds h s))))%nat /\
  debounce_time (snd (fst (deliver_all exec cfg ds h s))) = debounce_time h.
Proof.
  revert h s. induction ds as [| d rest IH]; intros h s.
  - cbn. auto.
  - cbn [deliver_all].
    pose proof (deliver_handler d h s) as Hd. cbn zeta in Hd.
    destruct (deliver exec cfg d h s) as [[r1 h1] s1]. cbn [fst snd] in Hd.
    destruct Hd as (Hdeb & Hd).
    specialize (IH h1 s1).
    destruct (deliver_all exec cfg rest h1 s1) as [[times h2] s2].
    cbn [fst snd] in *. destruct IH as (Hsp & Hlen & Hdeb2).
    destruct (negb (is_directory (delivery_event d)) &&
              fst (_should_trigger_sync (delivery_time d) h))%bool.
    + destruct Hd as (Hgt & Hlast & Hlines). cbn [spaced length].
      rewrite Hlast, Hdeb in Hsp. rewrite Hlen, Hlines, Hdeb2, Hdeb.
      split; [split; assumption |]. split; [lia | reflexivity].
    + subst h1. auto.
Qed.

End Handler.

(** ** The manager *)

Section ManagerProperties.

Context {R : Type}.
Variable exec : forall c : call, R -> (exn + ret_type c) * R.
Variable getenv : string -> option string.
Variable disk : string -> R.

#[local] Arguments String.append : simpl never.

#[local] Abbreviation initialize := (initialize_sync_pairs exec getenv disk).

(** The lines the manager has logged do not steer the initialization: they
    are only added to. *)
Lemma initialize_logs configs :
  forall m : @SyncManager R,
  exists lines,
    manager_logs (snd (initialize configs m)) = (manager_logs m ++ lines)%list /\
    forall m2 : @SyncManager R,
      sync_pairs m2 = sync_pairs m ->
      fst (initialize configs m2) = fst (initialize configs m) /\
      sync_pairs (snd (initialize configs m2))
      = sync_pairs (snd (initialize configs m)) /\
      manager_logs (snd (initialize configs m2))
      = (manager_logs m2 ++ lines)%list.
Proof.
  induction configs as [| pc rest IH]; intros m.
  - exists []. cbn. rewrite app_nil_r. split; [reflexivity |].
    intros m2 Hm. rewrite app_nil_r. auto.
  - cbn [initialize_sync_pairs].
    destruct (new_SyncPair exec getenv disk pc) as [e | p].
    + destruct (is_Exception e).
      * destruct (subscript "name" (pc_name pc)) as [e' | n].
        -- exists []. cbn. rewrite app_nil_r. split; [reflexivity |].
           intros m2 Hm. rewrite app_nil_r. auto.
        -- match goal with
           | |- context [initialize rest ?m1] =>
               destruct (IH m1) as (lines & Hl & Hrest)
           end.
           eexists (_ :: lines). split.
           ++ rewrite Hl. cbn. rewrite <- app_assoc. reflexivity.
           ++ intros m2 Hm.
              match goal with
              | |- context [initialize rest (manager_log ?l ?msg m2)] =>
                  destruct (Hrest (manager_log l msg m2)) as (H1 & H2 & H3)
              end; [cbn; assumption |].
              rewrite H1, H2, H3. cbn. rewrite <- app_assoc. auto.
      * exists []. cbn. rewrite app_nil_r. split; [reflexivity |].
        intros m2 Hm. rewrite app_nil_r. auto.
    + destruct (subscript "name" (pc_name pc)) as [e' | n].
      * exists []. cbn. rewrite app_nil_r. split; [reflexivity |].
        intros m2 Hm. rewrite app_nil_r. auto.
      * match goal with
        | |- context [initialize rest ?m1] =>
            destruct (IH m1) as (lines & Hl & Hrest)
        end.
        eexists (_ :: lines). split.
        -- rewrite Hl. cbn. rewrite <- app_assoc. reflexivity.
        -- intros m2 Hm.
           match goal with
           | |- context [initialize rest (manager_log ?l ?msg ?m3)] =>
               destruct (Hrest (manager_log l msg m3)) as (H1 & H2 & H3)
           end; [cbn; now rewrite Hm |].
           rewrite H1, H2, H3. cbn. rewrite <- app_assoc. auto.
Qed.

(** X18: an entry that cannot be set up does not disturb the others.  When
    the construction of the pair of a named entry raises an [Exception],
    the manager logs one error line with the name and the message, and the
    initialization ends as it would without the entry: same outcome, same
    registry. *)
Theorem failed_entry_is_skipped pc n e rest (m : @SyncManager R) :
  pc_name pc = Some n ->
  new_SyncPair exec getenv disk pc = inl e ->
  is_Exception e = true ->
  fst (initialize (pc :: rest) m) = fst (initialize rest m) /\
  sync_pairs (snd (initialize (pc :: rest) m))
  = sync_pairs (snd (initialize rest m)) /\
  exists more,
    manager_logs (snd (initialize (pc :: rest) m))
    = (manager_logs m
       ++ (ERROR, ("Failed to initialize sync pair " ++ n ++ ": "
                   ++ str e)%string)
       :: more)%list.
Proof.
  intros Hn Hnew He. cbn [initialize_sync_pairs].
  rewrite Hnew, He, Hn. cbn [subscript].
  destruct (initialize_logs rest m) as (lines & _ & Hrest).
  match goal with
  | |- context [initialize rest (manager_log ?l ?msg m)] =>
      destruct (Hrest (manager_log l msg m)) as (H1 & H2 & H3)
  end; [reflexivity |].
  rewrite H1, H2, H3. split; [reflexivity |]. split; [reflexivity |].
  exists lines. cbn. rewrite <- app_assoc. reflexivity.
Qed.

(** X19: an entry without a name stops the initialization.  Its
    construction raises KeyError, the handler raises KeyError again while
    it formats its error line, and that one leaves
    [initialize_sync_pairs]: nothing is logged and no later entry is set
    up. *)
Theorem nameless_entry_stops_initialization pc rest (m : @SyncManager R) :
  pc_name pc = None ->
  initialize (pc :: rest) m = (inl (OtherException "KeyError: 'name'"), m).
Proof.
  intros Hn. cbn [initialize_sync_pairs].
  unfold new_SyncPair, read_config. rewrite Hn. reflexivity.
Qed.




End ManagerProperties.

(** * The further properties on concrete repositories *)

(** X5 on a repository without commits: the probe fails, the handler
    looks at the untracked files. *)
Lemma has_changes_only_reads_witness :
  last_sync_time
    (snd (_has_changes Mock.exec Mock.cfg (Mock.pair Mock.unborn_with_file)))
  = last_sync_time (Mock.pair Mock.unborn_with_file) /\
  sync_lock
    (snd (_has_changes Mock.exec Mock.cfg (Mock.pair Mock.unborn_with_file)))
  = sync_lock (Mock.pair Mock.unborn_with_file) /\
  exists evs,
    trace (snd (_has_changes Mock.exec Mock.cfg
                  (Mock.pair Mock.unborn_with_file)))
    = (trace (Mock.pair Mock.unborn_with_file) ++ evs)%list /\
    Forall (fun ev => fst ev = HeadCommit \/ fst ev = UntrackedFiles \/
                      exists other, fst ev = IndexDiff other) evs.
Proof.
  apply (has_changes_only_reads Mock.exec Mock.cfg
           (Mock.pair Mock.unborn_with_file)
           (fst (_has_changes Mock.exec Mock.cfg
                   (Mock.pair Mock.unborn_with_file)))).
  apply surjective_pairing.
Defined.

(** X6 on a clean tree with one untracked file. *)
Lemma has_changes_with_resolved_head_witness :
  fst (_has_changes Mock.exec Mock.cfg (Mock.pair Mock.with_untracked))
  = inr (nonempty (@nil string) || nonempty ["draft.txt"])%bool.
Proof.
  apply (has_changes_with_resolved_head Mock.exec Mock.cfg
           (Mock.pair Mock.with_untracked) (Mock.hexsha 1)
           Mock.with_untracked [] Mock.with_untracked ["draft.txt"]
           Mock.with_untracked); reflexivity.
Defined.

(** X7 when another process holds the index. *)
Lemma has_changes_failures_witness :
  exists s',
    _has_changes (Examples.faulty Examples.index_locked) Mock.cfg
                 (Mock.pair Mock.edited) = (inr false, s') /\
    In (WARNING, "Error checking for changes in " ++ name Mock.cfg ++ ": "
                 ++ str Examples.index_lock) (logs s').
Proof.
  destruct (has_changes_failures (Examples.faulty Examples.index_locked)
              Mock.cfg) as [Hlogged _].
  apply (Hlogged (Mock.pair Mock.edited) Examples.index_lock
           (snd (has_changes_with_head (Examples.faulty Examples.index_locked)
                   (Mock.pair Mock.edited)))); reflexivity.
Defined.

(** X8 after an edit of the tracked file. *)
Lemma dirty_tree_is_committed_first_witness :
  exists x rest,
    trace (snd (_pull_changes Mock.exec Mock.cfg (Mock.pair Mock.edited)))
    = (trace (Mock.pair Mock.edited)
       ++ (IsDirty, None) :: (IndexAdd "*", x) :: rest)%list.
Proof.
  apply (dirty_tree_is_committed_first Mock.exec Mock.cfg
           (Mock.pair Mock.edited) Mock.edited
           (fst (_pull_changes Mock.exec Mock.cfg (Mock.pair Mock.edited)))).
  - reflexivity.
  - apply surjective_pairing.
Defined.

(** X9 when the remote rejects the push of the commit made before the
    pull: the edit is committed, the push fails, the branch is reset to the
    remote one and [_pull_changes] answers [True]. *)
Lemma failed_commit_before_pull_resets_witness :
  exists x evs,
    trace (snd (_pull_changes Mock.exec Mock.cfg (Mock.pair Examples.rejected)))
    = (trace (Mock.pair Examples.rejected) ++ evs
       ++ [(Git "reset" (reset_args Mock.cfg), x)])%list /\
    Forall (fun ev => is_pull (fst ev) = false) evs /\
    fst (_pull_changes Mock.exec Mock.cfg (Mock.pair Examples.rejected))
    = match x with
      | None => inr true
      | Some e' => if is_GitCommandError e' then inr false else inl e'
      end.
Proof.
  apply (failed_commit_before_pull_resets Mock.exec Mock.cfg
           (Mock.pair Examples.rejected) Examples.rejected
           (GitCommandError "error: failed to push some refs")
           (snd (_commit_and_push Mock.exec Mock.cfg
                   (mkState Examples.rejected [(IsDirty, None)] [] 0 false))));
    vm_compute; reflexivity.
Defined.

(** X10 on a message that spells the words with capitals. *)
Lemma conflict_in_any_case_witness :
  is_merge_conflict
    (GitCommandError ("CONFLICT (content): " ++ "Merge Conflict" ++ " in a.txt"))
  = true /\
  pull_recover Mock.exec Mock.cfg
    (GitCommandError ("CONFLICT (content): " ++ "Merge Conflict" ++ " in a.txt"))
    (Mock.pair Mock.clean)
  = recover_conflict Mock.exec Mock.cfg
      (mkState (repo (Mock.pair Mock.clean)) (trace (Mock.pair Mock.clean))
         (logs (Mock.pair Mock.clean)
          ++ [pull_failed_line Mock.cfg
                (GitCommandError ("CONFLICT (content): " ++ "Merge Conflict"
                                  ++ " in a.txt"))])
         (last_sync_time (Mock.pair Mock.clean))
         (sync_lock (Mock.pair Mock.clean))).
Proof.
  apply (conflict_in_any_case Mock.exec Mock.cfg "CONFLICT (content): "
           "Merge Conflict" " in a.txt" (Mock.pair Mock.clean)).
  reflexivity.
Defined.

(** X11 on a repository without commits: the probe fails and the repair
    lists the commits. *)
Lemma construction_moves_head_only_in_repair_witness :
  exists evs,
    trace (snd (__init__ Mock.exec Mock.cfg (Mock.pair Mock.unborn_empty)))
    = (trace (Mock.pair Mock.unborn_empty) ++ evs)%list /\
    (Exists (fun ev => relocates_head (fst ev) = true) evs ->
     Exists (fun ev => failed_probe ev = true) evs).
Proof.
  apply (construction_moves_head_only_in_repair Mock.exec Mock.cfg
           (Mock.pair Mock.unborn_empty)
           (fst (__init__ Mock.exec Mock.cfg (Mock.pair Mock.unborn_empty)))).
  apply surjective_pairing.
Defined.

(** X12 on a folder with one file and no repository. *)
Lemma construction_spares_healthy_repository_witness :
  exists evs,
    trace (snd (__init__ Mock.exec Mock.cfg
                  (Mock.pair Examples.fresh_with_file)))
    = (trace (Mock.pair Examples.fresh_with_file) ++ evs)%list /\
    (Exists (fun ev => is_repair (fst ev) = true) evs ->
     Exists (fun ev => (failed_probe ev || created_repository ev)%bool = true)
            evs).
Proof.
  apply (construction_spares_healthy_repository Mock.exec Mock.cfg
           (Mock.pair Examples.fresh_with_file)
           (fst (__init__ Mock.exec Mock.cfg
                   (Mock.pair Examples.fresh_with_file)))).
  apply surjective_pairing.
Defined.

(** X13 on a repository that has its [origin]. *)
Lemma initialize_git_sets_origin_once_witness :
  exists before c after,
    trace (snd (_initialize_git Mock.exec Mock.cfg (Mock.pair Mock.clean)))
    = (trace (Mock.pair Mock.clean) ++ before ++ (c, None) :: after)%list /\
    sets_origin (remote_url Mock.cfg) c = true /\
    Forall (fun ev => touches_remotes (fst ev) = false) before /\
    Forall (fun ev => touches_remotes (fst ev) = false) after.
Proof.
  apply (initialize_git_sets_origin_once Mock.exec Mock.cfg
           (Mock.pair Mock.clean)).
  vm_compute. reflexivity.
Defined.

(** X14 on a healthy repository, with the first sync at 1000. *)
Lemma first_sync_is_not_throttled_witness :
  exists x rest,
    trace (snd (sync Mock.exec Mock.cfg 1000
                  (snd (__init__ Mock.exec Mock.cfg (Mock.pair Mock.clean)))))
    = (trace (snd (__init__ Mock.exec Mock.cfg (Mock.pair Mock.clean)))
       ++ (IsDirty, x) :: rest)%list.
Proof.
  apply (first_sync_is_not_throttled Mock.exec Mock.cfg
           (Mock.pair Mock.clean)
           (snd (__init__ Mock.exec Mock.cfg (Mock.pair Mock.clean)))
           1000
           (fst (sync Mock.exec Mock.cfg 1000
                   (snd (__init__ Mock.exec Mock.cfg (Mock.pair Mock.clean)))))).
  - vm_compute. reflexivity.
  - vm_compute. discriminate.
  - apply surjective_pairing.
Defined.

(** X15 on an edit of a tracked file, seen at 1000 by a new handler of a
    pair that has never synced. *)
Lemma handler_acts_only_when_due_witness :
  is_directory Examples.file_event = false /\
  debounce_time new_handler < 1000 - last_event_time new_handler /\
  sync_lock (Mock.pair Mock.edited) = false /\
  autocommit_time Mock.cfg <= 1000 - last_sync_time (Mock.pair Mock.edited).
Proof.
  apply (handler_acts_only_when_due Mock.exec Mock.cfg "modified"
           Examples.file_event 1000 1000 new_handler (Mock.pair Mock.edited)
           (fst (fst (on_event Mock.exec Mock.cfg "modified"
                        Examples.file_event 1000 1000 new_handler
                        (Mock.pair Mock.edited))))
           (snd (fst (on_event Mock.exec Mock.cfg "modified"
                        Examples.file_event 1000 1000 new_handler
                        (Mock.pair Mock.edited))))
           (snd (on_event Mock.exec Mock.cfg "modified"
                   Examples.file_event 1000 1000 new_handler
                   (Mock.pair Mock.edited)))).
  - vm_compute. reflexivity.
  - intros E. apply (f_equal (fun st => List.length (trace st))) in E.
    vm_compute in E. discriminate.
Defined.

(** X16 on an edit seen at 1000, one hundred seconds after a completed
    sync. *)
Lemma event_in_throttled_window_is_lost_witness :
  exists h',
    on_event Mock.exec Mock.cfg "modified" Examples.file_event 1000 1000
             new_handler Examples.synced_at_900
    = (inr tt, h', Examples.synced_at_900) /\
    last_event_time h' = 1000 /\
    debounce_time h' = debounce_time new_handler /\
    forall what2 ev2 t2 t2',
      t2 - 1000 <= debounce_time new_handler ->
      on_event Mock.exec Mock.cfg what2 ev2 t2 t2' h' Examples.synced_at_900
      = (inr tt, h', Examples.synced_at_900).
Proof.
  apply (event_in_throttled_window_is_lost Mock.exec Mock.cfg "modified"
           Examples.file_event 1000 1000 new_handler Examples.synced_at_900);
    reflexivity.
Defined.

(** X18 on an entry whose token variable is not set, before one that can
    be set up. *)
Lemma failed_entry_is_skipped_witness :
  fst (initialize_sync_pairs Mock.exec Examples.getenv Examples.disk
         [Examples.photos; Examples.notes] Examples.no_pairs)
  = fst (initialize_sync_pairs Mock.exec Examples.getenv Examples.disk
           [Examples.notes] Examples.no_pairs) /\
  sync_pairs (snd (initialize_sync_pairs Mock.exec Examples.getenv
                     Examples.disk [Examples.photos; Examples.notes]
                     Examples.no_pairs))
  = sync_pairs (snd (initialize_sync_pairs Mock.exec Examples.getenv
                       Examples.disk [Examples.notes] Examples.no_pairs)) /\
  exists more,
    manager_logs (snd (initialize_sync_pairs Mock.exec Examples.getenv
                         Examples.disk [Examples.photos; Examples.notes]
                         Examples.no_pairs))
    = (manager_logs Examples.no_pairs
       ++ (ERROR, ("Failed to initialize sync pair " ++ "photos" ++ ": "
                   ++ str (ValueError
                             "Environment variable PHOTOS_TOKEN not set"))%string)
       :: more)%list.
Proof.
  apply (failed_entry_is_skipped Mock.exec Examples.getenv Examples.disk
           Examples.photos "photos"
           (ValueError "Environment variable PHOTOS_TOKEN not set")
           [Examples.notes] Examples.no_pairs); reflexivity.
Defined.

(** X19 on an entry without a name, before one that could be set up. *)
Lemma nameless_entry_stops_initialization_witness :
  initialize_sync_pairs Mock.exec Examples.getenv Examples.disk
    [Examples.nameless; Examples.notes] Examples.no_pairs
  = (inl (OtherException "KeyError: 'name'"), Examples.no_pairs).
Proof.
  apply (nameless_entry_stops_initialization Mock.exec Examples.getenv
           Examples.disk Examples.nameless [Examples.notes] Examples.no_pairs).
  reflexivity.
Defined.

